(** * One-Day Tour Planning: the routing and scheduling engine

    A shallow embedding of [backend/agent/optimization.py]
    (class [OptimizationAgent]) and of the schema it instantiates
    ([backend/models/schemas.py]), followed by the properties of the
    travel-graph builder, the greedy path selector, the time-slot
    scheduler and the cost aggregation.

    Conventions of the embedding:
    - a Python call either returns or raises: [outcome];
    - Python numbers keep their dynamic type ([PInt] / [PFloat]).  The
      builder, the scheduler and the first embedding of the selector take
      a float as the rational it denotes, kept in lowest terms, which is
      what Python computes on ints; there the one infinity of the source,
      the initial [best_score], is the absence of a best candidate.  The
      selector is embedded a second time over an arithmetic ([Generic]),
      of which Python's own ([binary64]: ints of any size, floats with
      rounding to nearest, infinities, NaN and [OverflowError]) is one;
      what depends on how floats round is settled there;
    - a [dict] is a [gmap]; the [networkx.Graph] is the list of its nodes
      in insertion order plus its adjacency as a map on ordered pairs, both
      orientations of an undirected edge holding the same attribute dict. *)

From Stdlib Require Import SpecFloat ZArith QArith Qround String List Lia Lqa.
From stdpp Require Import gmap strings list fin_maps.

Open Scope Z_scope.
Open Scope string_scope.
Open Scope list_scope.

(** ** Exceptions and outcomes *)

Inductive exn : Set :=
| KeyError
| IndexError
| TypeError
| ValueError
| ValidationError
| OverflowError.

(** [OutOfFuel] is not a Python outcome: it is the answer of a bounded loop
    whose bound was too small.  [optimal_path_total] shows the selector
    never gives it. *)
Inductive outcome (A : Type) : Type :=
| Return (a : A)
| Raise (e : exn)
| OutOfFuel.

Arguments Return {A} a.
Arguments Raise {A} e.
Arguments OutOfFuel {A}.

Global Instance outcome_ret : MRet outcome := fun _ a => Return a.

Global Instance outcome_bind : MBind outcome := fun _ _ k c =>
  match c with
  | Return a => k a
  | Raise e => Raise e
  | OutOfFuel => OutOfFuel
  end.

(** [for x in xs: s = body(s, x)], stopping at the first exception. *)
Fixpoint for_each {A S} (body : S -> A -> outcome S) (xs : list A) (s : S)
  : outcome S :=
  match xs with
  | [] => Return s
  | x :: xs' => s' ← body s x; for_each body xs' s'
  end.

(** ** Numbers *)

Inductive num : Set :=
| PInt (z : Z)
| PFloat (q : Q).

Definition num_val (n : num) : Q :=
  match n with
  | PInt z => inject_Z z
  | PFloat q => q
  end.

(** [a + b]: int + int is an int, anything else a float. *)
Definition num_add (a b : num) : num :=
  match a, b with
  | PInt x, PInt y => PInt (x + y)
  | _, _ => PFloat (Qred (num_val a + num_val b))
  end.

(** [a * b] *)
Definition num_mul (a b : num) : num :=
  match a, b with
  | PInt x, PInt y => PInt (x * y)
  | _, _ => PFloat (Qred (num_val a * num_val b))
  end.

(** [a / b] (true division) for a non-zero [b]: always a float. *)
Definition num_truediv (a b : num) : num :=
  PFloat (Qred (num_val a / num_val b)).

(** [a <= b] and [a < b] *)
Definition num_le (a b : num) : bool := Qle_bool (num_val a) (num_val b).
Definition num_lt (a b : num) : bool := negb (Qle_bool (num_val b) (num_val a)).

(** ** Schema ([models/schemas.py]) *)

Record Location : Set := {
  name : string;
  address : string;
  coordinates : Q * Q
}.

(** [datetime.time], reduced to the two fields the engine reads. *)
Record time : Set := {
  hour : Z;
  minute : Z
}.

Record ItineraryStop : Set := {
  location : Location;
  start_time : time;
  end_time : time;
  activity_type : string;
  cost : Q;
  status : string;
  travel_time_to_next : option Z;
  travel_method_to_next : option string
}.

(** What a caller may pass for [location=]: a [Location], or (as the
    scheduler does) a bare node name. *)
Inductive location_arg : Set :=
| LocObj (l : Location)
| LocName (s : string).

(** The keyword arguments of one [ItineraryStop(...)] call; [None] is an
    argument that the call does not give. *)
Record stop_kwargs : Set := {
  kw_location : option location_arg;
  kw_start_time : option time;
  kw_end_time : option time;
  kw_activity_type : option string;
  kw_cost : option num;
  kw_status : option string;
  kw_travel_time_to_next : option num;
  kw_travel_method_to_next : option string
}.

(** [Optional[int]] field: an int, or a float without fractional part. *)
Definition as_int (n : num) : option Z :=
  match n with
  | PInt z => Some z
  | PFloat q => if Qeq_bool (inject_Z (Qfloor q)) q then Some (Qfloor q) else None
  end.

(** Validation done by [BaseModel.__init__]: [location], [start_time],
    [end_time], [activity_type], [cost] and [status] have no default and are
    required; [location] must be a [Location]; the two [Optional] fields
    default to [None].  Any failure is one [ValidationError]. *)
Definition ItineraryStop_init (kw : stop_kwargs) : outcome ItineraryStop :=
  match kw_location kw, kw_start_time kw, kw_end_time kw,
        kw_activity_type kw, kw_cost kw, kw_status kw with
  | Some (LocObj l), Some st, Some et, Some act, Some c, Some stat =>
      match kw_travel_time_to_next kw with
      | None =>
          Return {| location := l; start_time := st; end_time := et;
                    activity_type := act; cost := num_val c; status := stat;
                    travel_time_to_next := None;
                    travel_method_to_next := kw_travel_method_to_next kw |}
      | Some t =>
          match as_int t with
          | Some z =>
              Return {| location := l; start_time := st; end_time := et;
                        activity_type := act; cost := num_val c; status := stat;
                        travel_time_to_next := Some z;
                        travel_method_to_next := kw_travel_method_to_next kw |}
          | None => Raise ValidationError
          end
      end
  | _, _, _, _, _, _ => Raise ValidationError
  end.

(** ** The graph ([networkx.Graph]) *)

Abbreviation node := string.

(** A value stored under a key of an edge's attribute dict. *)
Inductive attr : Set :=
| ANum (x : num)
| AStr (s : string)
| ADict (d : gmap string num).

Record Graph : Type := {
  g_nodes : list node;
  g_adj : gmap (node * node) (gmap string attr)
}.

Definition empty_graph : Graph := {| g_nodes := []; g_adj := ∅ |}.

Definition add_node (ns : list node) (u : node) : list node :=
  if bool_decide (u ∈ ns) then ns else ns ++ [u].

(** [G.add_edge(u, v, **kw)]: both end points become nodes, the edge's
    attribute dict is the one it had (or a new one) updated with [kw], and
    it is the dict of both orientations. *)
Definition add_edge (G : Graph) (u v : node) (kw : gmap string attr) : Graph :=
  let datadict := kw ∪ default ∅ (g_adj G !! (u, v)) in
  {| g_nodes := add_node (add_node (g_nodes G) u) v;
     g_adj := <[(v, u) := datadict]> (<[(u, v) := datadict]> (g_adj G)) |}.

(** [G.get_edge_data(u, v)]: the attribute dict, or [None]. *)
Definition get_edge_data (G : Graph) (u v : node) : option (gmap string attr) :=
  g_adj G !! (u, v).

(** ** The agent *)

Record mode_params : Set := {
  cost_per_km : num;
  speed_kmh : num
}.

(** [self.transport_modes], in insertion order. *)
Definition transport_modes : list (string * mode_params) :=
  [ ("walking", {| cost_per_km := PInt 0; speed_kmh := PInt 4 |});
    ("taxi", {| cost_per_km := PInt 2; speed_kmh := PInt 30 |});
    ("public_transport",
      {| cost_per_km := PFloat (1 # 2); speed_kmh := PInt 20 |}) ].

Definition mode_names : list string := map fst transport_modes.

(** The keyword arguments of the [add_edge] call of the builder. *)
Definition edge_kwargs (mode : string) (distance : Q) (travel_time travel_cost : num)
  : gmap string attr :=
  {[ "mode" := AStr mode;
     "distance" := ANum (PFloat distance);
     "time" := ANum travel_time;
     "cost" := ANum travel_cost ]}.

(** One hop of the selected path: the dict literal with the keys
    ['from'], ['to'], ['mode'], ['time'] and ['cost']. *)
Record Segment : Set := {
  seg_from : node;
  seg_to : node;
  seg_mode : string;
  seg_time : num;
  seg_cost : num
}.

(** [enumerate(l)] *)
Definition enumerate {A} (l : list A) : list (nat * A) :=
  imap (fun i x => (i, x)) l.

(** [d[k1][k2]] on an attribute dict [d]. *)
Definition getitem2 (d : gmap string attr) (k1 k2 : string) : outcome num :=
  match d !! k1 with
  | None => Raise KeyError
  | Some (ADict inner) =>
      match inner !! k2 with
      | Some x => Return x
      | None => Raise KeyError
      end
  | Some (ANum _) | Some (AStr _) => Raise TypeError
  end.

(** [G[u][v][k1][k2]] *)
Definition edge_item (G : Graph) (u v : node) (k1 k2 : string) : outcome num :=
  match g_adj G !! (u, v) with
  | None => Raise KeyError
  | Some d => getitem2 d k1 k2
  end.

(** Truth value of a dict: it is not empty. *)
Definition dict_truthy (d : gmap string attr) : bool :=
  negb (bool_decide (size d = 0%nat)).

(** [a // b] and [a % b] for a non-zero [b]. *)
Definition num_floordiv (a b : num) : num :=
  match a, b with
  | PInt x, PInt y => PInt (x / y)
  | _, _ => PFloat (inject_Z (Qfloor (num_val a / num_val b)))
  end.

Definition num_mod (a b : num) : num :=
  match a, b with
  | PInt x, PInt y => PInt (x mod y)
  | _, _ =>
      PFloat (Qred (num_val a - inject_Z (Qfloor (num_val a / num_val b)) * num_val b))
  end.

(** [time(hour=h, minute=m)]: both must be ints, in range. *)
Definition time_init (h m : num) : outcome time :=
  match h, m with
  | PInt h, PInt m =>
      if bool_decide (0 <= h < 24 /\ 0 <= m < 60)
      then Return {| hour := h; minute := m |}
      else Raise ValueError
  | _, _ => Raise TypeError
  end.

Definition _minutes_to_time (minutes : num) : outcome time :=
  let hours := num_floordiv minutes (PInt 60) in
  let mins := num_mod minutes (PInt 60) in
  time_init hours mins.

(** The state of the scan for the best hop: [None] before any candidate was
    accepted ([best_next is None], [best_score] infinite), then
    [(best_next, best_score, best_mode)]. *)
Abbreviation best_state := (option (node * num * string)).

(** The variables of [_calculate_optimal_path] that its loop updates. *)
Record loop_state : Set := {
  current_node : node;
  remaining_nodes : list node;
  current_cost : num;
  optimal_path : list Segment
}.

Section Agent.

(** [x ** 0.5] on floats. *)
Variable pow_half : Q -> Q.

(** The order in which a [for] loop goes through the set holding the
    elements of a list. *)
Variable set_order : list node -> list node.

Definition _calculate_distance (loc1 loc2 : Location) : Q :=
  let '(lat1, lon1) := coordinates loc1 in
  let '(lat2, lon2) := coordinates loc2 in
  pow_half (Qred ((lat2 - lat1) ^ 2 + (lon2 - lon1) ^ 2)).

(** Body of [for mode, params in self.transport_modes.items()]. *)
Definition add_mode_edge (loc1 loc2 : Location) (distance : Q)
    (G : Graph) (mp : string * mode_params) : Graph :=
  let '(mode, params) := mp in
  let travel_time :=
    num_mul (num_truediv (PFloat distance) (speed_kmh params)) (PInt 60) in
  let travel_cost := num_mul (PFloat distance) (cost_per_km params) in
  add_edge G (name loc1) (name loc2)
    (edge_kwargs mode distance travel_time travel_cost).

(** Body of [for j, loc2 in enumerate(locations)]. *)
Definition add_pair (i : nat) (loc1 : Location) (G : Graph)
    (jl : nat * Location) : Graph :=
  let '(j, loc2) := jl in
  if bool_decide (i ≠ j) then
    let distance := _calculate_distance loc1 loc2 in
    fold_left (add_mode_edge loc1 loc2 distance) transport_modes G
  else G.

Definition stop_locations (stops : list ItineraryStop)
    (starting_point : option Location) : list Location :=
  match starting_point with
  | Some sp => sp :: map location stops
  | None => map location stops
  end.

Definition _create_travel_graph (stops : list ItineraryStop)
    (starting_point : option Location) : Graph :=
  let locations := stop_locations stops starting_point in
  fold_left
    (fun G il => fold_left (add_pair (fst il) (snd il)) (enumerate locations) G)
    (enumerate locations) empty_graph.

(** Lines 81-88: one (next_node, mode) candidate. *)
Definition consider (G : Graph) (budget : num) (current : node)
    (cost_so_far : num) (next_node : node) (best : best_state)
    (mode : string) : outcome best_state :=
  match get_edge_data G current next_node with
  | Some edge_data =>
      if dict_truthy edge_data then
        c ← getitem2 edge_data mode "cost";
        if num_le (num_add c cost_so_far) budget then
          t ← getitem2 edge_data mode "time";
          c' ← getitem2 edge_data mode "cost";
          let score := num_add t (num_mul c' (PInt 10)) in
          match best with
          | None => Return (Some (next_node, score, mode))
          | Some (_, best_score, _) =>
              if num_lt score best_score
              then Return (Some (next_node, score, mode))
              else Return best
          end
        else Return best
      else Return best
  | None => Return best
  end.

(** Lines 75-88: the two nested [for] loops. *)
Definition scan (G : Graph) (budget : num) (current : node)
    (remaining : list node) (cost_so_far : num) : outcome best_state :=
  for_each
    (fun best next_node =>
       for_each (consider G budget current cost_so_far next_node)
         mode_names best)
    (set_order remaining) None.

(** Lines 75-103: one turn of the [while] loop.  [None] is the [break];
    otherwise the variables as the turn leaves them.  The set's [remove]
    raises [KeyError] for an element that is not in it. *)
Definition loop_body (G : Graph) (budget : num) (s : loop_state)
    : outcome (option loop_state) :=
  best ← scan G budget (current_node s) (remaining_nodes s) (current_cost s);
  match best with
  | None => Return None
  | Some (best_next, _, best_mode) =>
      t ← edge_item G (current_node s) best_next best_mode "time";
      c ← edge_item G (current_node s) best_next best_mode "cost";
      let segment :=
        {| seg_from := current_node s; seg_to := best_next;
           seg_mode := best_mode; seg_time := t; seg_cost := c |} in
      c' ← edge_item G (current_node s) best_next best_mode "cost";
      if bool_decide (best_next ∈ remaining_nodes s) then
        Return (Some
          {| current_node := best_next;
             remaining_nodes :=
               filter (fun n => n ≠ best_next) (remaining_nodes s);
             current_cost := num_add (current_cost s) c';
             optimal_path := optimal_path s ++ [segment] |})
      else Raise KeyError
  end.

(** Lines 74-105: [while remaining_nodes: ...], at most [fuel] turns, then
    [return optimal_path]. *)
Fixpoint while_remaining (fuel : nat) (G : Graph) (budget : num)
    (s : loop_state) : outcome (list Segment) :=
  match remaining_nodes s with
  | [] => Return (optimal_path s)
  | _ :: _ =>
      match fuel with
      | O => OutOfFuel
      | S fuel' =>
          r ← loop_body G budget s;
          match r with
          | None => Return (optimal_path s)
          | Some s' => while_remaining fuel' G budget s'
          end
      end
  end.

(** Lines 67-72: the variables before the first turn. *)
Definition initial_state (current : node) (rest : list node) : loop_state :=
  {| current_node := current;
     remaining_nodes := remove_dups rest;
     current_cost := PInt 0;
     optimal_path := [] |}.

Definition _calculate_optimal_path (G : Graph) (budget : num)
    : outcome (list Segment) :=
  match g_nodes G with
  | [] => Raise IndexError
  | current :: rest =>
      let s := initial_state current rest in
      while_remaining (length (remaining_nodes s)) G budget s
  end.

(** Lines 119-138: the [for segment in path] loop. *)
Fixpoint schedule_loop (path : list Segment) (current_time end_minutes : num)
    (scheduled_stops : list ItineraryStop) : outcome (list ItineraryStop) :=
  match path with
  | [] => Return scheduled_stops
  | segment :: path' =>
      let current_time := num_add current_time (seg_time segment) in
      let stop_duration := PInt 60 in
      if num_le (num_add current_time stop_duration) end_minutes then
        st ← _minutes_to_time current_time;
        et ← _minutes_to_time (num_add current_time stop_duration);
        stop ← ItineraryStop_init
          {| kw_location := Some (LocName (seg_to segment));
             kw_start_time := Some st;
             kw_end_time := Some et;
             kw_activity_type := None;
             kw_cost := Some (seg_cost segment);
             kw_status := None;
             kw_travel_time_to_next := Some (seg_time segment);
             kw_travel_method_to_next := Some (seg_mode segment) |};
        schedule_loop path' (num_add current_time stop_duration) end_minutes
          (scheduled_stops ++ [stop])
      else Return scheduled_stops
  end.

Definition time_minutes (t : time) : num := PInt (hour t * 60 + minute t).

Definition _assign_time_slots (path : list Segment) (start_time end_time : time)
    : outcome (list ItineraryStop) :=
  let current_time := time_minutes start_time in
  let end_minutes := time_minutes end_time in
  schedule_loop path current_time end_minutes [].

(** [sum(stop.cost for stop in stops)], from the int [0]. *)
Definition _calculate_total_cost (stops : list ItineraryStop) : num :=
  fold_left (fun acc stop => num_add acc (PFloat (cost stop))) stops (PInt 0).

Definition optimize_route (stops : list ItineraryStop) (budget : num)
    (start_time end_time : time) (starting_point : option Location)
    : outcome (list ItineraryStop * num) :=
  let G := _create_travel_graph stops starting_point in
  optimized_path ← _calculate_optimal_path G budget;
  scheduled_stops ← _assign_time_slots optimized_path start_time end_time;
  let total_cost := _calculate_total_cost scheduled_stops in
  Return (scheduled_stops, total_cost).

End Agent.

(** * Notions used to state the properties *)

(** The [(time, cost)] the selector reads for going from [u] to [v] by
    [mode]: the edge must have a non-empty attribute dict whose entry for
    the mode is a dict with both keys. *)
Definition hop (G : Graph) (u v : node) (mode : string) : option (num * num) :=
  d ← get_edge_data G u v;
  if dict_truthy d then
    match d !! mode with
    | Some (ADict inner) =>
        t ← inner !! "time"; c ← inner !! "cost"; Some (t, c)
    | _ => None
    end
  else None.

(** [time + cost * 10] *)
Definition score (t c : num) : num := num_add t (num_mul c (PInt 10)).

Definition within_budget (budget cost_so_far c : num) : Prop :=
  (num_val c + num_val cost_so_far <= num_val budget)%Q.

(** A hop the selector may take from [current] when [cost_so_far] is
    already spent. *)
Definition eligible (G : Graph) (budget : num) (current : node)
    (cost_so_far : num) (n : node) (mode : string) (t c : num) : Prop :=
  hop G current n mode = Some (t, c) /\ within_budget budget cost_so_far c.

(** The best candidate so far scores at most [s]. *)
Definition beats (best : best_state) (s : num) : Prop :=
  exists n s' m, best = Some (n, s', m) /\ (num_val s' <= num_val s)%Q.

(** Sum of the travel costs of a path. *)
Definition travel_cost_sum (path : list Segment) : Q :=
  fold_right (fun seg acc => (num_val (seg_cost seg) + acc)%Q) 0%Q path.

(** Every hop of [path] kept the cost of the hops before it, plus its own,
    within [budget]. *)
Definition committed_within (budget : num) (path : list Segment) : Prop :=
  forall pre seg post, path = pre ++ seg :: post ->
    (num_val (seg_cost seg) + travel_cost_sum pre <= num_val budget)%Q.

(** [current_cost] is the cost of the hops committed so far, and these
    were all within budget. *)
Definition budget_inv (budget : num) (s : loop_state) : Prop :=
  (num_val (current_cost s) == travel_cost_sum (optimal_path s))%Q /\
  committed_within budget (optimal_path s).

(** No (node, mode) candidate of this turn has a cost that fits: the edge
    is missing or has no data, or the mode's cost exceeds what is left. *)
Definition no_candidate_within_budget (G : Graph) (budget : num)
    (s : loop_state) : Prop :=
  forall n m, n ∈ remaining_nodes s -> m ∈ mode_names ->
    match get_edge_data G (current_node s) n with
    | None => True
    | Some d =>
        dict_truthy d = false \/
        exists c, getitem2 d m "cost" = Return c /\
                  ~ within_budget budget (current_cost s) c
    end.

(** [reaches s s']: the loop started with the variables [s] comes to the
    head of a turn with the variables [s']. *)
Inductive reaches (set_order : list node -> list node) (G : Graph)
    (budget : num) : loop_state -> loop_state -> Prop :=
| reaches_here s : reaches set_order G budget s s
| reaches_turn s s' s'' :
    remaining_nodes s <> [] ->
    loop_body set_order G budget s = Return (Some s') ->
    reaches set_order G budget s' s'' ->
    reaches set_order G budget s s''.

(** The keyword arguments the builder gives [add_edge] for one mode. *)
Definition mode_kwargs (mp : string * mode_params) (distance : Q)
  : gmap string attr :=
  edge_kwargs (fst mp) distance
    (num_mul (num_truediv (PFloat distance) (speed_kmh (snd mp))) (PInt 60))
    (num_mul (PFloat distance) (cost_per_km (snd mp))).

(** Those of the mode that [transport_modes] lists last. *)
Definition last_mode_kwargs (distance : Q) : gmap string attr :=
  mode_kwargs
    ("public_transport",
      {| cost_per_km := PFloat (1 # 2); speed_kmh := PInt 20 |})
    distance.

Definition attr_keys : gset string := {[ "mode"; "distance"; "time"; "cost" ]}.

(** One turn of the outer loop of the builder, and the whole loop, over
    the list of locations [locs]. *)
Definition build_row (pow_half : Q -> Q) (locs : list Location) (G : Graph)
    (il : nat * Location) : Graph :=
  fold_left (add_pair pow_half (fst il) (snd il)) (enumerate locs) G.

Definition build (pow_half : Q -> Q) (locs : list Location) : Graph :=
  fold_left (build_row pow_half locs) (enumerate locs) empty_graph.

(** What holds of the graph while the builder runs over [locs]: its nodes
    are distinct names of locations, and every edge has, as its whole
    attribute dict, the keyword arguments of the last mode for the
    distance between two locations with the names of its end points. *)
Definition built_inv (pow_half : Q -> Q) (locs : list Location) (G : Graph)
  : Prop :=
  NoDup (g_nodes G) /\
  (forall u, u ∈ g_nodes G -> exists l, l ∈ locs /\ name l = u) /\
  (forall u v d, g_adj G !! (u, v) = Some d ->
     exists l1 l2, l1 ∈ locs /\ l2 ∈ locs /\ name l1 = u /\ name l2 = v /\
       d = last_mode_kwargs (_calculate_distance pow_half l1 l2)).

(** Every attribute dict of the graph has only the four keys of the
    builder. *)
Definition edges_flat (G : Graph) : Prop :=
  forall k d, g_adj G !! k = Some d -> dom d ⊆ attr_keys.

(** The data of every candidate of this turn can be read: an edge with a
    non-empty attribute dict has, for every mode, an entry that is a dict
    with a time and a cost. *)
Definition candidates_readable (G : Graph) (s : loop_state) : Prop :=
  forall n m, n ∈ remaining_nodes s -> m ∈ mode_names ->
    match get_edge_data G (current_node s) n with
    | None => True
    | Some d =>
        dict_truthy d = true ->
        exists t c, getitem2 d m "time" = Return t /\
                    getitem2 d m "cost" = Return c
    end.

(** ** Sample inputs *)

Definition sample_location (n : string) (lat lon : Q) : Location :=
  {| name := n; address := ""; coordinates := (lat, lon) |}.

Definition sample_stop (l : Location) : ItineraryStop :=
  {| location := l;
     start_time := {| hour := 9; minute := 0 |};
     end_time := {| hour := 10; minute := 0 |};
     activity_type := "sightseeing"; cost := 5; status := "planned";
     travel_time_to_next := None; travel_method_to_next := None |}.

Definition two_stops : list ItineraryStop :=
  [ sample_stop (sample_location "A" 0 0);
    sample_stop (sample_location "B" 3 4) ].

Definition mode_entry (t c : num) : attr :=
  ADict {[ "time" := t; "cost" := c ]}.

(** A graph of the shape the selector reads (one entry per mode on every
    edge), on which every mode has a price. *)
Definition sample_graph : Graph :=
  add_edge
    (add_edge
       (add_edge empty_graph "A" "B"
          {[ "walking" := mode_entry (PInt 30) (PInt 1);
             "taxi" := mode_entry (PInt 4) (PInt 4);
             "public_transport" := mode_entry (PInt 6) (PInt 2) ]})
       "A" "C"
       {[ "walking" := mode_entry (PInt 75) (PInt 3);
          "taxi" := mode_entry (PInt 10) (PInt 10);
          "public_transport" := mode_entry (PInt 15) (PInt 5) ]})
    "B" "C"
    {[ "walking" := mode_entry (PInt 45) (PInt 2);
       "taxi" := mode_entry (PInt 6) (PInt 6);
       "public_transport" := mode_entry (PInt 9) (PInt 3) ]}.

Definition walk_A_B : Segment :=
  {| seg_from := "A"; seg_to := "B"; seg_mode := "walking";
     seg_time := PInt 30; seg_cost := PInt 1 |}.

Definition nine : time := {| hour := 9; minute := 0 |}.
Definition eighteen : time := {| hour := 18; minute := 0 |}.

(** A stand-in for [x ** 0.5], exact on squares of integers. *)
Definition sample_pow_half (x : Q) : Q :=
  Qred (Z.sqrt (Qnum x * Z.pos (Qden x)) # Qden x).

(** The iteration order of a set taken to be that of the list. *)
Definition list_order (l : list node) : list node := l.

(** ** Notions for the scheduler *)

(** Arriving at [clock + travel time], a visit of 60 minutes ends within
    the window. *)
Definition fits (clock : num) (seg : Segment) (end_minutes : num) : Prop :=
  (num_val clock + num_val (seg_time seg) + 60 <= num_val end_minutes)%Q.

Definition minutes_of (t : time) : Z := hour t * 60 + minute t.

(** The stops are the successive arrivals of the hops of [path]: each
    starts before the next one, records the time and the mode of the hop
    to the next one, and the next one starts when that hop ends. *)
Fixpoint stops_follow (path : list Segment) (stops : list ItineraryStop)
  : Prop :=
  match stops, path with
  | s1 :: (s2 :: _) as stops', _ :: (hop2 :: _) as path' =>
      minutes_of (start_time s1) < minutes_of (start_time s2) /\
      travel_time_to_next s1 = as_int (seg_time hop2) /\
      travel_method_to_next s1 = Some (seg_mode hop2) /\
      (inject_Z (minutes_of (start_time s2)) ==
       inject_Z (minutes_of (end_time s1)) + num_val (seg_time hop2))%Q /\
      stops_follow path' stops'
  | _ :: _ :: _, _ => False
  | _, _ => True
  end.

(** ** Notions for the shape of a selected path *)

(** The hops follow one another from [start]: each leaves from where the
    one before arrived. *)
Fixpoint chain (start : node) (path : list Segment) : Prop :=
  match path with
  | [] => True
  | seg :: path' => seg_from seg = start /\ chain (seg_to seg) path'
  end.

(** Where a path from [start] ends. *)
Definition path_end (start : node) (path : list Segment) : node :=
  match last path with
  | Some seg => seg_to seg
  | None => start
  end.

(** A hop holds the mode, the time and the cost read on its edge. *)
Definition hop_of_graph (G : Graph) (seg : Segment) : Prop :=
  seg_mode seg ∈ mode_names /\
  hop G (seg_from seg) (seg_to seg) (seg_mode seg) =
  Some (seg_time seg, seg_cost seg).

(** Every edge between nodes of the graph that has data has, for every
    mode, an entry with a time and a cost. *)
Definition graph_readable (G : Graph) : Prop :=
  forall u v d m, u ∈ g_nodes G -> v ∈ g_nodes G ->
    get_edge_data G u v = Some d -> dict_truthy d = true -> m ∈ mode_names ->
    exists t c, getitem2 d m "time" = Return t /\ getitem2 d m "cost" = Return c.


(** The hops committed so far are a chain from [start] to the current
    node through different nodes of [to_visit], none of which remains;
    the nodes of [to_visit] not yet reached remain. *)
Definition shape_inv (G : Graph) (start : node) (to_visit : list node)
    (s : loop_state) : Prop :=
  chain start (optimal_path s) /\
  current_node s = path_end start (optimal_path s) /\
  NoDup (remaining_nodes s) /\
  NoDup (map seg_to (optimal_path s)) /\
  (forall x, x ∈ map seg_to (optimal_path s) ->
             x ∈ to_visit /\ x ∉ remaining_nodes s) /\
  (forall x, x ∈ remaining_nodes s -> x ∈ to_visit) /\
  (forall x, x ∈ to_visit ->
             x ∈ map seg_to (optimal_path s) \/ x ∈ remaining_nodes s) /\
  Forall (hop_of_graph G) (optimal_path s).

(** An exception of a subscript. *)
Definition lookup_error (e : exn) : Prop := e = KeyError \/ e = TypeError.


(** The paths of the selector on [sample_graph] with budget 100 and on
    [free_walk_graph] with budget 0. *)
Definition ride_A_B_C : list Segment :=
  [ {| seg_from := "A"; seg_to := "B"; seg_mode := "public_transport";
       seg_time := PInt 6; seg_cost := PInt 2 |};
    {| seg_from := "B"; seg_to := "C"; seg_mode := "public_transport";
       seg_time := PInt 9; seg_cost := PInt 3 |} ].


(** ** Notions for the built graph *)

(** [u] and [v] are the names of the locations at two different positions
    of [locs]. *)
Definition named_pair (locs : list Location) (u v : node) : Prop :=
  exists i j loc1 loc2, i ≠ j /\ locs !! i = Some loc1 /\ locs !! j = Some loc2 /\
    name loc1 = u /\ name loc2 = v.

(** Every edge joins the names of the locations at two different
    positions. *)
Definition edges_named (locs : list Location) (G : Graph) : Prop :=
  forall u v, is_Some (g_adj G !! (u, v)) -> named_pair locs u v.

(** Both orientations of an edge hold the same data. *)
Definition undirected (G : Graph) : Prop :=
  forall u v, g_adj G !! (u, v) = g_adj G !! (v, u).

(** The end points of the edges are nodes. *)
Definition edges_in_nodes (G : Graph) : Prop :=
  forall u v, is_Some (g_adj G !! (u, v)) -> u ∈ g_nodes G /\ v ∈ g_nodes G.

(** The first node is [n], unless there is no node yet. *)
Definition starts_at (n : node) (G : Graph) : Prop :=
  g_nodes G = [] \/ head (g_nodes G) = Some n.

(** ** Notions for the clock *)

(** The fields of [t] are in the ranges of [datetime.time]. *)
Definition valid_time (t : time) : Prop :=
  0 <= hour t < 24 /\ 0 <= minute t < 60.

(** * The selector in Python's arithmetic

    The definitions above take a float as the rational it denotes.  Here
    the selector is given over an arithmetic, and Python's own, with
    binary64 floats, is one. *)

(** ** An arithmetic of numbers *)

(** What the selector does with numbers: it reads those of the graph and
    the budget, adds, multiplies and compares them, and starts its best
    score at [float('inf')].  [+] and [*] may raise. *)
Record arith : Type := {
  number : Type;
  of_num : num -> number;
  py_add : number -> number -> outcome number;
  py_mul : number -> number -> outcome number;
  py_le : number -> number -> bool;
  py_lt : number -> number -> bool;
  py_inf : number
}.

Module Generic.

(** The variables of [_calculate_optimal_path] that its loop updates. *)
Record loop_state (A : arith) : Type := {
  current_node : node;
  remaining_nodes : list node;
  current_cost : number A;
  optimal_path : list Segment
}.

Arguments current_node {A} _.
Arguments remaining_nodes {A} _.
Arguments current_cost {A} _.
Arguments optimal_path {A} _.

(** [(best_next, best_score, best_mode)], [None] while [best_next is None]
    and [best_score] is [float('inf')]. *)
Definition best_state (A : arith) : Type := option (node * number A * string).

Definition best_score {A : arith} (best : best_state A) : number A :=
  match best with
  | None => py_inf A
  | Some (_, s, _) => s
  end.

Section Arith.

Variable A : arith.
Variable set_order : list node -> list node.

(** Lines 81-88: one (next_node, mode) candidate. *)
Definition consider (G : Graph) (budget : num) (current : node)
    (cost_so_far : number A) (next_node : node) (best : best_state A)
    (mode : string) : outcome (best_state A) :=
  match get_edge_data G current next_node with
  | Some edge_data =>
      if dict_truthy edge_data then
        c ← getitem2 edge_data mode "cost";
        total ← py_add A (of_num A c) cost_so_far;
        if py_le A total (of_num A budget) then
          t ← getitem2 edge_data mode "time";
          c' ← getitem2 edge_data mode "cost";
          weighted ← py_mul A (of_num A c') (of_num A (PInt 10));
          score ← py_add A (of_num A t) weighted;
          if py_lt A score (best_score best)
          then Return (Some (next_node, score, mode))
          else Return best
        else Return best
      else Return best
  | None => Return best
  end.

(** Lines 75-88: the two nested [for] loops. *)
Definition scan (G : Graph) (budget : num) (current : node)
    (remaining : list node) (cost_so_far : number A) : outcome (best_state A) :=
  for_each
    (fun best next_node =>
       for_each (consider G budget current cost_so_far next_node)
         mode_names best)
    (set_order remaining) None.

(** Lines 75-103: one turn of the [while] loop; [None] is the [break]. *)
Definition loop_body (G : Graph) (budget : num) (s : loop_state A)
    : outcome (option (loop_state A)) :=
  best ← scan G budget (current_node s) (remaining_nodes s) (current_cost s);
  match best with
  | None => Return None
  | Some (best_next, _, best_mode) =>
      t ← edge_item G (current_node s) best_next best_mode "time";
      c ← edge_item G (current_node s) best_next best_mode "cost";
      let segment :=
        {| seg_from := current_node s; seg_to := best_next;
           seg_mode := best_mode; seg_time := t; seg_cost := c |} in
      c' ← edge_item G (current_node s) best_next best_mode "cost";
      total ← py_add A (current_cost s) (of_num A c');
      if bool_decide (best_next ∈ remaining_nodes s) then
        Return (Some
          {| current_node := best_next;
             remaining_nodes :=
               filter (fun n => n ≠ best_next) (remaining_nodes s);
             current_cost := total;
             optimal_path := optimal_path s ++ [segment] |})
      else Raise KeyError
  end.

(** Lines 74-105: [while remaining_nodes: ...], at most [fuel] turns, then
    [return optimal_path]. *)
Fixpoint while_remaining (fuel : nat) (G : Graph) (budget : num)
    (s : loop_state A) : outcome (list Segment) :=
  match remaining_nodes s with
  | [] => Return (optimal_path s)
  | _ :: _ =>
      match fuel with
      | O => OutOfFuel
      | S fuel' =>
          r ← loop_body G budget s;
          match r with
          | None => Return (optimal_path s)
          | Some s' => while_remaining fuel' G budget s'
          end
      end
  end.

(** Lines 67-72: the variables before the first turn. *)
Definition initial_state (current : node) (rest : list node) : loop_state A :=
  {| current_node := current;
     remaining_nodes := remove_dups rest;
     current_cost := of_num A (PInt 0);
     optimal_path := [] |}.

Definition _calculate_optimal_path (G : Graph) (budget : num)
    : outcome (list Segment) :=
  match g_nodes G with
  | [] => Raise IndexError
  | current :: rest =>
      let s := initial_state current rest in
      while_remaining (length (remaining_nodes s)) G budget s
  end.

(** [reaches s s']: the loop started with the variables [s] comes to the
    head of a turn with the variables [s']. *)
Inductive reaches (G : Graph) (budget : num)
    : loop_state A -> loop_state A -> Prop :=
| reaches_here s : reaches G budget s s
| reaches_turn s s' s'' :
    remaining_nodes s <> [] ->
    loop_body G budget s = Return (Some s') ->
    reaches G budget s' s'' ->
    reaches G budget s s''.

End Arith.

End Generic.

(** ** Python's ints and floats *)

(** A Python number as the interpreter has it: an int of any size or a
    binary64 float, with its zeros, infinities and NaN. *)
Inductive pynum : Set :=
| VInt (z : Z)
| VFloat (f : spec_float).

Definition f64_prec : Z := 53.
Definition f64_emax : Z := 1024.

(** The float nearest to an integer (ties to even), infinite beyond the
    range. *)
Definition f64_of_Z (z : Z) : spec_float :=
  binary_normalize f64_prec f64_emax z 0 false.

(** The float a rational stands for: the nearest to it when its denominator
    is a power of two, as that of every float is; else the quotient of its
    terms as floats. *)
Definition f64_of_Q (q : Q) : spec_float :=
  let d := Z.pos (Qden q) in
  let k := Z.log2 d in
  if Z.eqb d (2 ^ k)
  then binary_normalize f64_prec f64_emax (Qnum q) (- k) false
  else SFdiv f64_prec f64_emax (f64_of_Z (Qnum q)) (f64_of_Z d).

(** [float(z)] as [+] and [*] convert an int operand: [OverflowError] for an
    int too large. *)
Definition float_of_int (z : Z) : outcome spec_float :=
  match f64_of_Z z with
  | S754_infinity _ => Raise OverflowError
  | f => Return f
  end.

Definition as_float (x : pynum) : outcome spec_float :=
  match x with
  | VInt z => float_of_int z
  | VFloat f => Return f
  end.

(** [x + y] and [x * y]: exact on two ints, else the rounded operation on
    floats. *)
Definition pynum_add (x y : pynum) : outcome pynum :=
  match x, y with
  | VInt a, VInt b => Return (VInt (a + b))
  | _, _ =>
      fx ← as_float x; fy ← as_float y;
      Return (VFloat (SFadd f64_prec f64_emax fx fy))
  end.

Definition pynum_mul (x y : pynum) : outcome pynum :=
  match x, y with
  | VInt a, VInt b => Return (VInt (a * b))
  | _, _ =>
      fx ← as_float x; fy ← as_float y;
      Return (VFloat (SFmul f64_prec f64_emax fx fy))
  end.

(** An int against a float, compared by their exact values; nothing
    compares with NaN. *)
Definition int_compare_float (z : Z) (f : spec_float) : option comparison :=
  match f with
  | S754_nan => None
  | S754_infinity s => Some (if s then Gt else Lt)
  | S754_zero _ => Some (Z.compare z 0)
  | S754_finite s m e =>
      let v := if s then Z.neg m else Z.pos m in
      Some (if Z.leb 0 e then Z.compare z (v * 2 ^ e)
            else Z.compare (z * 2 ^ (- e)) v)
  end.

Definition pynum_compare (x y : pynum) : option comparison :=
  match x, y with
  | VInt a, VInt b => Some (Z.compare a b)
  | VInt a, VFloat g => int_compare_float a g
  | VFloat f, VInt b => option_map CompOpp (int_compare_float b f)
  | VFloat f, VFloat g => SFcompare f g
  end.

Definition pynum_le (x y : pynum) : bool :=
  match pynum_compare x y with
  | Some (Lt | Eq) => true
  | _ => false
  end.

Definition pynum_lt (x y : pynum) : bool :=
  match pynum_compare x y with
  | Some Lt => true
  | _ => false
  end.

Definition pynum_of (n : num) : pynum :=
  match n with
  | PInt z => VInt z
  | PFloat q => VFloat (f64_of_Q q)
  end.

(** Python's arithmetic. *)
Definition binary64 : arith :=
  {| number := pynum;
     of_num := pynum_of;
     py_add := pynum_add;
     py_mul := pynum_mul;
     py_le := pynum_le;
     py_lt := pynum_lt;
     py_inf := VFloat (S754_infinity false) |}.

(** ** Notions for the selector in an arithmetic *)

(** On ints the arithmetic is the exact one. *)
Record exact_on_ints (A : arith) : Prop := {
  add_int : forall a b,
    py_add A (of_num A (PInt a)) (of_num A (PInt b)) =
    Return (of_num A (PInt (a + b)));
  mul_int : forall a b,
    py_mul A (of_num A (PInt a)) (of_num A (PInt b)) =
    Return (of_num A (PInt (a * b)));
  le_int : forall a b,
    py_le A (of_num A (PInt a)) (of_num A (PInt b)) = bool_decide (a <= b);
  lt_int : forall a b,
    py_lt A (of_num A (PInt a)) (of_num A (PInt b)) = bool_decide (a < b);
  lt_inf : forall a, py_lt A (of_num A (PInt a)) (py_inf A) = true
}.

(** Every number in the entries of the edges' attribute dicts is an int. *)
Definition int_valued (G : Graph) : Prop :=
  forall u v d m key x,
    get_edge_data G u v = Some d -> getitem2 d m key = Return x ->
    exists z, x = PInt z.

(** Two results of the same kind, related by [R] when they are values. *)
Definition outcome_rel {X Y} (R : X -> Y -> Prop) (o1 : outcome X)
    (o2 : outcome Y) : Prop :=
  match o1, o2 with
  | Return x, Return y => R x y
  | Raise e1, Raise e2 => e1 = e2
  | OutOfFuel, OutOfFuel => True
  | _, _ => False
  end.

(** The best candidate in the arithmetic [A] and in the exact one, on
    ints. *)
Definition best_rel (A : arith) (b1 : Generic.best_state A) (b2 : best_state)
  : Prop :=
  match b1, b2 with
  | None, None => True
  | Some (n1, s1, m1), Some (n2, s2, m2) =>
      n1 = n2 /\ m1 = m2 /\ exists z, s2 = PInt z /\ s1 = of_num A (PInt z)
  | _, _ => False
  end.

Definition state_rel (A : arith) (s1 : Generic.loop_state A) (s2 : loop_state)
  : Prop :=
  Generic.current_node s1 = current_node s2 /\
  Generic.remaining_nodes s1 = remaining_nodes s2 /\
  Generic.optimal_path s1 = optimal_path s2 /\
  exists z, current_cost s2 = PInt z /\ Generic.current_cost s1 = of_num A (PInt z).

(** The running total as [current_cost += cost] accumulates it over the
    hops of [path]. *)
Fixpoint running_total (A : arith) (acc : number A) (path : list Segment)
  : outcome (number A) :=
  match path with
  | [] => Return acc
  | seg :: path' =>
      acc' ← py_add A acc (of_num A (seg_cost seg));
      running_total A acc' path'
  end.

(** The test of line 82 for a hop of cost [c] when [spent] is the running
    total. *)
Definition passes_test (A : arith) (budget : num) (spent : number A) (c : num)
  : Prop :=
  exists total, py_add A (of_num A c) spent = Return total /\
                py_le A total (of_num A budget) = true.

(** Every hop of [path] passed the test against the running total of the
    hops before it. *)
Definition committed_by_test (A : arith) (budget : num) (path : list Segment)
  : Prop :=
  forall pre seg post, path = pre ++ seg :: post ->
    exists spent, running_total A (of_num A (PInt 0)) pre = Return spent /\
                  passes_test A budget spent (seg_cost seg).

(** [current_cost] is the running total of the path, every hop of which
    passed the test. *)
Definition test_inv (A : arith) (budget : num) (s : Generic.loop_state A)
  : Prop :=
  running_total A (of_num A (PInt 0)) (Generic.optimal_path s) =
    Return (Generic.current_cost s) /\
  committed_by_test A budget (Generic.optimal_path s).

(** A graph on which rounding decides: from A only B is affordable with a
    budget of [1e16], and from B the hop to C costs [1.0]. *)
Definition rounding_graph : Graph :=
  add_edge
    (add_edge
       (add_edge empty_graph "A" "B"
          {[ "walking" := mode_entry (PFloat 1) (PFloat (10 ^ 16));
             "taxi" := mode_entry (PFloat 1) (PFloat (10 ^ 16));
             "public_transport" := mode_entry (PFloat 1) (PFloat (10 ^ 16)) ]})
       "A" "C"
       {[ "walking" := mode_entry (PFloat 1) (PFloat (2 * 10 ^ 16));
          "taxi" := mode_entry (PFloat 1) (PFloat (2 * 10 ^ 16));
          "public_transport" := mode_entry (PFloat 1) (PFloat (2 * 10 ^ 16)) ]})
    "B" "C"
    {[ "walking" := mode_entry (PFloat 1) (PFloat 1);
       "taxi" := mode_entry (PFloat 1) (PFloat 1);
       "public_transport" := mode_entry (PFloat 1) (PFloat 1) ]}.

Definition rounding_budget : num := PFloat (10 ^ 16).

Definition rounding_path : list Segment :=
  [ {| seg_from := "A"; seg_to := "B"; seg_mode := "walking";
       seg_time := PFloat 1; seg_cost := PFloat (10 ^ 16) |};
    {| seg_from := "B"; seg_to := "C"; seg_mode := "walking";
       seg_time := PFloat 1; seg_cost := PFloat 1 |} ].

(** ** Notions for the hops of a returned path *)


(** The cost [c] added to the travel costs of [pre] stays within budget. *)
Definition affordable (budget : num) (pre : list Segment) (c : num) : Prop :=
  (num_val c + travel_cost_sum pre <= num_val budget)%Q.



(** No (node, mode) candidate of the turn that starts with the variables
    [s] has a cost that fits: the edge is missing or has no data, or the
    mode's cost added to the travel costs of the path exceeds the budget. *)
Definition out_of_budget {A : arith} (G : Graph) (budget : num)
    (s : Generic.loop_state A) : Prop :=
  forall n m, n ∈ Generic.remaining_nodes s -> m ∈ mode_names ->
    match get_edge_data G (Generic.current_node s) n with
    | None => True
    | Some d =>
        dict_truthy d = false \/
        exists c, getitem2 d m "cost" = Return c /\
                  ~ affordable budget (Generic.optimal_path s) c
    end.

(** No (node, mode) candidate of the turn that starts with the variables
    [s] passes the test of line 82 in the arithmetic [A]: the edge is
    missing or has no data, or the mode's cost added to [current_cost] does
    not compare [<=] with the budget. *)
Definition none_passes (A : arith) (G : Graph) (budget : num)
    (s : Generic.loop_state A) : Prop :=
  forall n m, n ∈ Generic.remaining_nodes s -> m ∈ mode_names ->
    match get_edge_data G (Generic.current_node s) n with
    | None => True
    | Some d =>
        dict_truthy d = false \/
        exists c total, getitem2 d m "cost" = Return c /\
          py_add A (of_num A c) (Generic.current_cost s) = Return total /\
          py_le A total (of_num A budget) = false
    end.


(** A check of [int_valued]. *)
Definition entry_ints (a : attr) : bool :=
  match a with
  | ADict inner =>
      forallb (fun kx => match snd kx with PInt _ => true | PFloat _ => false end)
        (map_to_list inner)
  | _ => true
  end.

Definition graph_ints (G : Graph) : bool :=
  forallb (fun kd => forallb (fun ma => entry_ints (snd ma)) (map_to_list (snd kd)))
    (map_to_list (g_adj G)).

(** ** More sample inputs *)

(** The variables of the selector in Python's arithmetic on [sample_graph]
    after its first turn with budget 1. *)
Definition after_first_turn_py : Generic.loop_state binary64 :=
  Generic.Build_loop_state binary64 "B" ["C"] (VInt 1) [walk_A_B].

(** The variables on [rounding_graph] after the first turn. *)
Definition rounding_turn : Generic.loop_state binary64 :=
  Generic.Build_loop_state binary64 "B" ["C"] (VFloat (f64_of_Z (10 ^ 16)))
    (take 1 rounding_path).






(** ** Notions for the call that builds a stop *)

(** Lines 126-133: the keyword arguments of the [ItineraryStop(...)] call
    for [segment], with the start and the end of the visit. *)
Definition stop_call (segment : Segment) (st et : time) : stop_kwargs :=
  {| kw_location := Some (LocName (seg_to segment));
     kw_start_time := Some st;
     kw_end_time := Some et;
     kw_activity_type := None;
     kw_cost := Some (seg_cost segment);
     kw_status := None;
     kw_travel_time_to_next := Some (seg_time segment);
     kw_travel_method_to_next := Some (seg_mode segment) |}.

(** The call with what it lacks supplied: a [Location] in place of the
    node name, an activity type and a status. *)
Definition with_missing (kw : stop_kwargs) (loc : Location) (act stat : string)
  : stop_kwargs :=
  {| kw_location := Some (LocObj loc);
     kw_start_time := kw_start_time kw;
     kw_end_time := kw_end_time kw;
     kw_activity_type := Some act;
     kw_cost := kw_cost kw;
     kw_status := Some stat;
     kw_travel_time_to_next := kw_travel_time_to_next kw;
     kw_travel_method_to_next := kw_travel_method_to_next kw |}.

Definition walk_B_C : Segment :=
  {| seg_from := "B"; seg_to := "C"; seg_mode := "walking";
     seg_time := PInt 45; seg_cost := PInt 2 |}.

Definition half_past_nine : time := {| hour := 9; minute := 30 |}.
Definition half_past_ten : time := {| hour := 10; minute := 30 |}.
Definition quarter_past_eleven : time := {| hour := 11; minute := 15 |}.
Definition quarter_past_twelve : time := {| hour := 12; minute := 15 |}.

(** ** Notions for the ranges of machine numbers *)

(** The coordinates are small enough for the square of a difference of two
    of them to be a finite float. *)
Definition coordinate_in_range (x : Q) : Prop :=
  (inject_Z (- 10 ^ 150) <= x)%Q /\ (x <= inject_Z (10 ^ 150))%Q.

Definition coordinates_in_range (loc : Location) : Prop :=
  coordinate_in_range (fst (coordinates loc)) /\
  coordinate_in_range (snd (coordinates loc)).

(** The hour of [z] minutes fits a C [int]. *)
Definition hour_fits_int (z : Z) : Prop := - 2 ^ 31 <= z / 60 < 2 ^ 31.

(** What the selector raises in Python's arithmetic. *)
Definition selector_error (e : exn) : Prop :=
  e = KeyError \/ e = TypeError \/ e = OverflowError.

(** * Properties *)

(** ** Numbers *)

Lemma num_val_add a b : (num_val (num_add a b) == num_val a + num_val b)%Q.
Proof.
  destruct a as [x|x], b as [y|y]; simpl; try apply Qred_correct.
  by rewrite inject_Z_plus.
Qed.


Lemma num_le_spec a b : num_le a b = true <-> (num_val a <= num_val b)%Q.
Proof. apply Qle_bool_iff. Qed.

Lemma num_lt_spec a b : num_lt a b = true <-> (num_val a < num_val b)%Q.
Proof.
  unfold num_lt. rewrite negb_true_iff, <- not_true_iff_false, Qle_bool_iff.
  split; [apply Qnot_le_lt | apply Qlt_not_le].
Qed.

Lemma num_lt_false a b : num_lt a b = false -> (num_val b <= num_val a)%Q.
Proof.
  unfold num_lt. rewrite negb_false_iff. apply Qle_bool_iff.
Qed.

Lemma num_le_within budget cost_so_far c :
  num_le (num_add c cost_so_far) budget = true <-> within_budget budget cost_so_far c.
Proof.
  unfold within_budget. rewrite num_le_spec, num_val_add. reflexivity.
Qed.

(** ** [for] loops *)

Lemma for_each_invariant {A S} (body : S -> A -> outcome S) (I : S -> Prop) xs :
  (forall s x s', x ∈ xs -> I s -> body s x = Return s' -> I s') ->
  forall s r, I s -> for_each body xs s = Return r -> I r.
Proof.
  induction xs as [|x xs IH]; simpl; intros Hstep s r Hs Hr.
  - by simplify_eq.
  - destruct (body s x) as [s'| |] eqn:Hb; simpl in Hr; try done.
    apply (IH (fun s0 y s0' Hy => Hstep s0 y s0' (list_elem_of_further _ _ _ Hy)) s' r);
      [|done].
    eapply Hstep; [left|done..].
Qed.

Lemma for_each_establish {A S} (body : S -> A -> outcome S)
    (Q : A -> S -> Prop) xs :
  (forall s x s', x ∈ xs -> body s x = Return s' -> Q x s') ->
  (forall x s y s', Q x s -> y ∈ xs -> body s y = Return s' -> Q x s') ->
  forall s r, for_each body xs s = Return r -> forall x, x ∈ xs -> Q x r.
Proof.
  induction xs as [|y xs IH]; simpl; intros Hest Hkeep s r Hr x Hx.
  - by apply elem_of_nil in Hx.
  - destruct (body s y) as [s'| |] eqn:Hb; simpl in Hr; try done.
    apply elem_of_cons in Hx as [->|Hx].
    + eapply (for_each_invariant body (Q y) xs); [|eapply Hest; [left|done]|done].
      intros s0 z s0' Hz HQ Hz'. eapply Hkeep; [done|right; done|done].
    + eapply IH; [| |done..].
      * intros s0 z s0' Hz. apply Hest. by right.
      * intros z s0 w s0' HQ Hw. eapply Hkeep; [done|by right].
Qed.

Lemma for_each_ext_in {A S} (f g : S -> A -> outcome S) xs :
  (forall s x, x ∈ xs -> f s x = g s x) ->
  forall s, for_each f xs s = for_each g xs s.
Proof.
  induction xs as [|x xs IH]; simpl; intros Hfg s; [done|].
  rewrite (Hfg s x) by left.
  destruct (g s x); simpl; try done.
  apply IH. intros s0 y Hy. apply Hfg. by right.
Qed.

(** ** The scan for the best hop *)

Lemma getitem2_Return d k1 k2 x :
  getitem2 d k1 k2 = Return x <->
  exists inner, d !! k1 = Some (ADict inner) /\ inner !! k2 = Some x.
Proof.
  unfold getitem2. split.
  - destruct (d !! k1) as [[?|?|inner]|]; try done.
    destruct (inner !! k2) eqn:Hk; [|done]. intros [= ->]. eauto.
  - intros (inner & -> & ->). done.
Qed.
Lemma hop_Some G u v mode t c :
  hop G u v mode = Some (t, c) <->
  exists d, get_edge_data G u v = Some d /\ dict_truthy d = true /\
            getitem2 d mode "time" = Return t /\
            getitem2 d mode "cost" = Return c.
Proof.
  unfold hop. split.
  - destruct (get_edge_data G u v) as [d|]; simpl; [|done].
    destruct (dict_truthy d) eqn:Htr; [|done].
    destruct (d !! mode) as [[?|?|inner]|] eqn:Hm; try done.
    destruct (inner !! "time") as [t'|] eqn:Ht; simpl; [|done].
    destruct (inner !! "cost") as [c'|] eqn:Hc; simpl; [|done].
    intros [= -> ->]. exists d. rewrite !getitem2_Return.
    split_and!; [done|done|by exists inner|by exists inner].
  - intros (d & Hd & Htr & Ht & Hc). rewrite Hd; simpl. rewrite Htr.
    apply getitem2_Return in Ht as (inner & Hm & Ht).
    apply getitem2_Return in Hc as (inner' & Hm' & Hc).
    rewrite Hm in Hm'. simplify_eq. rewrite Hm, Ht; simpl. by rewrite Hc.
Qed.

Lemma beats_refl n s m : beats (Some (n, s, m)) s.
Proof. exists n, s, m. split; [done|apply Qle_refl]. Qed.

Lemma beats_trans best s s' :
  beats best s -> (num_val s <= num_val s')%Q -> beats best s'.
Proof.
  intros (n & s0 & m & -> & Hle) Hs. exists n, s0, m.
  split; [done|]. by eapply Qle_trans.
Qed.

Lemma consider_spec G budget current cost_so_far n best mode best' :
  consider G budget current cost_so_far n best mode = Return best' ->
  (best' = best \/
   exists t c, eligible G budget current cost_so_far n mode t c /\
               best' = Some (n, score t c, mode)) /\
  (forall t c, eligible G budget current cost_so_far n mode t c ->
               beats best' (score t c)) /\
  (forall s, beats best s -> beats best' s).
Proof.
  unfold consider, eligible. intros Hc.
  destruct (get_edge_data G current n) as [d|] eqn:Hd; cycle 1.
  { simplify_eq. split_and!; [by left| |done].
    intros t c [Hh _]. apply hop_Some in Hh as (? & ? & _). congruence. }
  destruct (dict_truthy d) eqn:Htr; cycle 1.
  { simplify_eq. split_and!; [by left| |done].
    intros t c [Hh _]. apply hop_Some in Hh as (? & ? & ? & _). congruence. }
  destruct (getitem2 d mode "cost") as [c| |] eqn:Hcost; simpl in Hc; try done.
  destruct (num_le (num_add c cost_so_far) budget) eqn:Hle; cycle 1.
  { simplify_eq. split_and!; [by left| |done].
    intros t c' [Hh Hb]. apply hop_Some in Hh as (d' & ? & _ & _ & Hc').
    simplify_eq. apply num_le_within in Hb. congruence. }
  destruct (getitem2 d mode "time") as [t| |] eqn:Htime; simpl in Hc; try done.
  fold (score t c) in Hc.
  assert (Hel : hop G current n mode = Some (t, c) /\
                within_budget budget cost_so_far c).
  { split; [|by apply num_le_within]. apply hop_Some. eauto 10. }
  assert (Huniq : forall t' c', hop G current n mode = Some (t', c') ->
                                score t' c' = score t c).
  { intros t' c' Hh. destruct Hel as [Hh' _]. congruence. }
  destruct best as [[[bn bs] bm]|]; cycle 1.
  { simplify_eq. split_and!; [right; eauto| |].
    - intros t' c' [Hh _]. rewrite (Huniq _ _ Hh). apply beats_refl.
    - by intros s (? & ? & ? & ? & _). }
  destruct (num_lt (score t c) bs) eqn:Hlt; simplify_eq.
  - apply num_lt_spec in Hlt. split_and!; [right; eauto| |].
    + intros t' c' [Hh _]. rewrite (Huniq _ _ Hh). apply beats_refl.
    + intros s (? & ? & ? & ? & Hs). simplify_eq.
      eapply beats_trans; [apply beats_refl|].
      eapply Qle_trans; [apply Qlt_le_weak|]; done.
  - apply num_lt_false in Hlt. split_and!; [by left| |done].
    intros t' c' [Hh _]. rewrite (Huniq _ _ Hh).
    eapply beats_trans; [apply beats_refl|done].
Qed.

(** ** The selector *)

Lemma inner_loop_spec G budget current cost_so_far n modes best best' :
  for_each (consider G budget current cost_so_far n) modes best = Return best' ->
  (best' = best \/
   exists m t c, m ∈ modes /\ eligible G budget current cost_so_far n m t c /\
                 best' = Some (n, score t c, m)) /\
  (forall m t c, m ∈ modes -> eligible G budget current cost_so_far n m t c ->
                 beats best' (score t c)) /\
  (forall s, beats best s -> beats best' s).
Proof.
  intros Hrun. split_and!.
  - apply (for_each_invariant _
      (fun b => b = best \/
         exists m t c, m ∈ modes /\ eligible G budget current cost_so_far n m t c /\
                       b = Some (n, score t c, m))) with (3:=Hrun); [|by left].
    intros s m s' Hm Hs Hc. apply consider_spec in Hc as ([->|(t & c & ? & ->)] & _).
    + done.
    + right. by exists m, t, c.
  - intros m t c Hm. revert m Hm t c.
    apply (for_each_establish _
      (fun m s => forall t c, eligible G budget current cost_so_far n m t c ->
                              beats s (score t c)) _) with (3:=Hrun).
    + intros s m s' _ Hc. apply consider_spec in Hc as (_ & Hall & _). apply Hall.
    + intros m s m' s' HQ _ Hc t c He.
      apply consider_spec in Hc as (_ & _ & Hkeep). by apply Hkeep, HQ.
  - apply (for_each_invariant _ (fun b => forall s, beats best s -> beats b s))
      with (3:=Hrun); [|done].
    intros s m s' _ Hs Hc s0 Hb.
    apply consider_spec in Hc as (_ & _ & Hkeep). by apply Hkeep, Hs.
Qed.

Lemma for_each_fuel {A S} (body : S -> A -> outcome S) xs :
  (forall s x, body s x <> OutOfFuel) ->
  forall s, for_each body xs s <> OutOfFuel.
Proof.
  intros Hbody. induction xs as [|x xs IH]; intros s; simpl; [done|].
  specialize (Hbody s x). destruct (body s x); simpl; [apply IH|done..].
Qed.

Lemma getitem2_fuel d k1 k2 : getitem2 d k1 k2 <> OutOfFuel.
Proof.
  unfold getitem2. destruct (d !! k1) as [[?|?|inner]|]; try done.
  by destruct (inner !! k2).
Qed.

Lemma consider_fuel G budget current cost_so_far n best mode :
  consider G budget current cost_so_far n best mode <> OutOfFuel.
Proof.
  unfold consider. destruct (get_edge_data G current n) as [d|]; [|done].
  destruct (dict_truthy d); [|done].
  pose proof (getitem2_fuel d mode "cost"). pose proof (getitem2_fuel d mode "time").
  destruct (getitem2 d mode "cost") as [c| |]; simpl; try done.
  destruct (num_le _ _); [|done].
  destruct (getitem2 d mode "time") as [t| |]; simpl; try done.
  destruct best as [[[? bs] ?]|]; [|done]. by destruct (num_lt _ _).
Qed.

Section Selector.

Variable set_order : list node -> list node.
Variables (G : Graph) (budget : num).

Lemma scan_origin current remaining cost_so_far best :
  scan set_order G budget current remaining cost_so_far = Return best ->
  best = None \/
  exists n m t c, n ∈ set_order remaining /\ m ∈ mode_names /\
    eligible G budget current cost_so_far n m t c /\
    best = Some (n, score t c, m).
Proof.
  unfold scan. intros Hrun.
  apply (for_each_invariant _
    (fun b => b = None \/
       exists n m t c, n ∈ set_order remaining /\ m ∈ mode_names /\
         eligible G budget current cost_so_far n m t c /\
         b = Some (n, score t c, m))) with (3:=Hrun); [|by left].
  intros s n s' Hn Hs Hc. cbv beta in Hc. 
  apply inner_loop_spec in Hc as ([->|(m & t & c & ? & ? & ->)] & _).
  - exact Hs.
  - right. by exists n, m, t, c.
Qed.


(** What a turn of the loop that does not raise has done. *)
Lemma loop_body_Return s r :
  loop_body set_order G budget s = Return r ->
  exists best,
    scan set_order G budget (current_node s) (remaining_nodes s)
      (current_cost s) = Return best /\
    match best with
    | None => r = None
    | Some (n, sc, m) =>
        n ∈ remaining_nodes s /\ m ∈ mode_names /\
        exists t c,
          eligible G budget (current_node s) (current_cost s) n m t c /\
          sc = score t c /\
          r = Some {| current_node := n;
                      remaining_nodes :=
                        filter (fun x => x ≠ n) (remaining_nodes s);
                      current_cost := num_add (current_cost s) c;
                      optimal_path := optimal_path s ++
                        [{| seg_from := current_node s; seg_to := n;
                            seg_mode := m; seg_time := t; seg_cost := c |}] |}
    end.
Proof.
  unfold loop_body. intros Hrun.
  destruct (scan _ _ _ _ _ _) as [best| |] eqn:Hscan; simpl in Hrun; try done.
  exists best. split; [done|].
  destruct best as [[[n sc] m]|]; [|by simplify_eq].
  apply scan_origin in Hscan as [?|(n' & m' & t & c & _ & Hm & Hel & ?)];
    [done|]. simplify_eq.
  pose proof Hel as [Hhop _].
  apply hop_Some in Hhop as (d & Hd & _ & Ht & Hc).
  unfold edge_item in Hrun. unfold get_edge_data in Hd.
  rewrite Hd, Ht in Hrun; simpl in Hrun. rewrite Hc in Hrun; simpl in Hrun.
  case_bool_decide; [|done]. simplify_eq. eauto 10.
Qed.

Lemma scan_fuel current remaining cost_so_far :
  scan set_order G budget current remaining cost_so_far <> OutOfFuel.
Proof.
  apply for_each_fuel. intros best n. apply for_each_fuel.
  intros best' m. apply consider_fuel.
Qed.

Lemma loop_body_fuel s : loop_body set_order G budget s <> OutOfFuel.
Proof.
  unfold loop_body. pose proof (scan_fuel (current_node s) (remaining_nodes s)
    (current_cost s)) as Hscan.
  destruct (scan _ _ _ _ _ _) as [[[[n sc] m]|]| |]; simpl; try done.
  unfold edge_item. destruct (g_adj G !! (current_node s, n)) as [d|]; [|done].
  pose proof (getitem2_fuel d m "time"). pose proof (getitem2_fuel d m "cost").
  destruct (getitem2 d m "time"); simpl; try done.
  destruct (getitem2 d m "cost"); simpl; try done.
  by case_bool_decide.
Qed.

Lemma travel_cost_sum_snoc path seg :
  (travel_cost_sum (path ++ [seg]) ==
   travel_cost_sum path + num_val (seg_cost seg))%Q.
Proof.
  induction path as [|x path IH]; simpl; [lra|]. rewrite IH. lra.
Qed.

Lemma committed_within_snoc path seg :
  committed_within budget path ->
  (num_val (seg_cost seg) + travel_cost_sum path <= num_val budget)%Q ->
  committed_within budget (path ++ [seg]).
Proof.
  intros Hc Hle pre seg' post Heq.
  destruct post as [|x post _] using rev_ind.
  - apply app_inj_tail in Heq as [-> ->]. done.
  - rewrite app_comm_cons, app_assoc in Heq.
    apply app_inj_tail in Heq as [-> _]. by eapply Hc.
Qed.

Lemma committed_within_sum path :
  (0 <= num_val budget)%Q -> committed_within budget path ->
  (travel_cost_sum path <= num_val budget)%Q.
Proof.
  intros Hb Hc. destruct path as [|x path _] using rev_ind; [done|].
  rewrite travel_cost_sum_snoc. specialize (Hc path x [] eq_refl). lra.
Qed.

Lemma loop_body_budget_inv s s' :
  budget_inv budget s ->
  loop_body set_order G budget s = Return (Some s') ->
  budget_inv budget s'.
Proof.
  intros [Hcost Hpath] Hrun.
  apply loop_body_Return in Hrun as (best & _ & Hbest).
  destruct best as [[[n sc] m]|]; [|done].
  destruct Hbest as (_ & _ & t & c & [_ Hin] & _ & [= ->]).
  unfold within_budget in Hin. split; simpl.
  - rewrite travel_cost_sum_snoc, num_val_add; simpl. by rewrite Hcost.
  - apply committed_within_snoc; [done|]; simpl. by rewrite <- Hcost.
Qed.

Lemma while_remaining_budget_inv fuel s path :
  budget_inv budget s ->
  while_remaining set_order fuel G budget s = Return path ->
  committed_within budget path.
Proof.
  revert s. induction fuel as [|fuel IH]; intros s Hinv; simpl;
    destruct (remaining_nodes s) eqn:Hrem; intros Hrun.
  1, 3: simplify_eq; by destruct Hinv.
  { done. }
  destruct (loop_body set_order G budget s) as [[s'|]| |] eqn:Hbody;
    simpl in Hrun; try done.
  - eapply IH; [|done]. by eapply loop_body_budget_inv.
  - simplify_eq. by destruct Hinv.
Qed.

(** The bound given to the loop is never the reason it stops. *)
Lemma while_remaining_fuel fuel s :
  (length (remaining_nodes s) <= fuel)%nat ->
  while_remaining set_order fuel G budget s <> OutOfFuel.
Proof.
  revert s. induction fuel as [|fuel IH]; intros s Hlen; simpl;
    destruct (remaining_nodes s) as [|x rest] eqn:Hrem; try done.
  { simpl in Hlen. lia. }
  destruct (loop_body set_order G budget s) as [[s'|]| |] eqn:Hbody; simpl;
    try done.
  - apply IH. apply loop_body_Return in Hbody as (best & _ & Hbest).
    destruct best as [[[n sc] m]|]; [|done].
    destruct Hbest as (Hn & _ & t & c & _ & _ & [= ->]); simpl.
    assert (Hnn : ~ n ≠ n) by (intros Hne; by apply Hne).
    pose proof (length_filter_lt (fun y => y ≠ n) _ n Hn Hnn) as Hlt.
    rewrite <- Hrem in Hlen. lia.
  - by apply loop_body_fuel in Hbody.
Qed.

Lemma reaches_while s s' fuel :
  reaches set_order G budget s s' ->
  (length (remaining_nodes s) <= fuel)%nat ->
  exists fuel', (length (remaining_nodes s') <= fuel')%nat /\
    while_remaining set_order fuel G budget s =
    while_remaining set_order fuel' G budget s'.
Proof.
  intros Hr. revert fuel.
  induction Hr as [s|s s' s'' Hne Hbody _ IH]; intros fuel Hlen; [eauto|].
  destruct fuel as [|fuel].
  { destruct (remaining_nodes s); simpl in *; [done|lia]. }
  assert (Hlen' : (length (remaining_nodes s') <= fuel)%nat).
  { pose proof Hbody as Hb.
    apply loop_body_Return in Hb as (best & _ & Hbest).
    destruct best as [[[n sc] m]|]; [|done].
    destruct Hbest as (Hn & _ & t & c & _ & _ & [= ->]); simpl.
    assert (Hnn : ~ n ≠ n) by (intros Hne'; by apply Hne').
    pose proof (length_filter_lt (fun y => y ≠ n) _ n Hn Hnn) as Hlt. lia. }
  destruct (IH fuel Hlen') as (fuel' & ? & Heq). exists fuel'. split; [done|].
  simpl. destruct (remaining_nodes s); [done|]. by rewrite Hbody.
Qed.

Lemma reaches_budget_inv s s' :
  reaches set_order G budget s s' -> budget_inv budget s -> budget_inv budget s'.
Proof.
  induction 1 as [|s s' s'' _ Hbody _ IH]; [done|].
  intros Hinv. apply IH. by eapply loop_body_budget_inv.
Qed.

Lemma length_filter_ne (l : list node) n :
  NoDup l -> n ∈ l -> S (length (filter (fun x => x ≠ n) l)) = length l.
Proof.
  induction 1 as [|x l Hx Hl IH]; intros Hn; [by apply elem_of_nil in Hn|].
  destruct (decide (x = n)) as [->|Hne].
  - rewrite filter_cons_False by (intros Hnn; by apply Hnn). simpl. f_equal.
    clear IH Hn Hl. induction l as [|y l IH]; [done|].
    apply not_elem_of_cons in Hx as [Hny Hx].
    rewrite filter_cons_True by done. simpl. f_equal. by apply IH.
  - rewrite filter_cons_True by done. simpl. f_equal. apply IH.
    apply elem_of_cons in Hn as [->|Hn]; done.
Qed.

Lemma reaches_count s s' :
  reaches set_order G budget s s' -> NoDup (remaining_nodes s) ->
  NoDup (remaining_nodes s') /\
  (length (optimal_path s') + length (remaining_nodes s') =
   length (optimal_path s) + length (remaining_nodes s))%nat.
Proof.
  induction 1 as [|s s' s'' _ Hbody _ IH]; intros Hnd; [done|].
  apply loop_body_Return in Hbody as (best & _ & Hbest).
  destruct best as [[[n sc] m]|]; [|done].
  destruct Hbest as (Hn & _ & t & c & _ & _ & [= ->]); simpl in IH.
  destruct IH as [Hnd' Hlen]; [by apply NoDup_filter|]. split; [done|].
  rewrite Hlen, length_app; simpl.
  pose proof (length_filter_ne _ n Hnd Hn). lia.
Qed.

Lemma consider_skip current cost_so_far n best m :
  match get_edge_data G current n with
  | None => True
  | Some d =>
      dict_truthy d = false \/
      exists c, getitem2 d m "cost" = Return c /\
                ~ within_budget budget cost_so_far c
  end ->
  consider G budget current cost_so_far n best m = Return best.
Proof.
  unfold consider. destruct (get_edge_data G current n) as [d|]; [|done].
  intros [->|(c & -> & Hover)]; [done|].
  destruct (dict_truthy d); [|done]. simpl.
  destruct (num_le (num_add c cost_so_far) budget) eqn:Hle; [|done].
  by apply num_le_within in Hle.
Qed.

Lemma for_each_unchanged {A S} (body : S -> A -> outcome S) xs s :
  (forall x, x ∈ xs -> body s x = Return s) -> for_each body xs s = Return s.
Proof.
  induction xs as [|x xs IH]; intros Hbody; simpl; [done|].
  rewrite Hbody by left. simpl. apply IH. intros y Hy. apply Hbody. by right.
Qed.

Hypothesis set_order_elem : forall l x, x ∈ set_order l <-> x ∈ l.

Lemma scan_no_candidate s :
  no_candidate_within_budget G budget s ->
  scan set_order G budget (current_node s) (remaining_nodes s)
    (current_cost s) = Return None.
Proof.
  intros Hno. unfold scan. apply for_each_unchanged. intros n Hn.
  apply for_each_unchanged. intros m Hm. apply consider_skip.
  apply Hno; [by apply set_order_elem|done].
Qed.

End Selector.

Lemma committed_within_nil budget : committed_within budget [].
Proof. intros pre seg post Heq. by destruct pre. Qed.

Lemma initial_budget_inv budget current rest :
  budget_inv budget (initial_state current rest).
Proof. split; [done|apply committed_within_nil]. Qed.


(** The selector always answers: it returns a path or raises. *)
Lemma optimal_path_total set_order G budget :
  _calculate_optimal_path set_order G budget <> OutOfFuel.
Proof.
  unfold _calculate_optimal_path. destruct (g_nodes G); [done|].
  by apply while_remaining_fuel.
Qed.

Lemma for_each_returns {A S} (body : S -> A -> outcome S) xs :
  (forall s x, x ∈ xs -> exists s', body s x = Return s') ->
  forall s, exists r, for_each body xs s = Return r.
Proof.
  induction xs as [|x xs IH]; intros Hbody s; simpl; [eauto|].
  destruct (Hbody s x) as [s' ->]; [left|]. simpl.
  apply IH. intros s0 y Hy. apply Hbody. by right.
Qed.

Lemma consider_readable G budget current cost_so_far n best m :
  match get_edge_data G current n with
  | None => True
  | Some d =>
      dict_truthy d = true ->
      exists t c, getitem2 d m "time" = Return t /\
                  getitem2 d m "cost" = Return c
  end ->
  exists best', consider G budget current cost_so_far n best m = Return best'.
Proof.
  unfold consider. destruct (get_edge_data G current n) as [d|]; [|eauto].
  destruct (dict_truthy d); [|eauto].
  intros Hread. destruct Hread as (t & c & -> & ->); [done|]. simpl.
  destruct (num_le _ _); [|eauto]. simpl.
  destruct best as [[[? bs] ?]|]; [|eauto]. destruct (num_lt _ _); eauto.
Qed.

Lemma loop_body_readable set_order G budget s :
  (forall l x, x ∈ set_order l <-> x ∈ l) ->
  candidates_readable G s ->
  exists r, loop_body set_order G budget s = Return r.
Proof.
  intros Hord Hread. unfold loop_body.
  destruct (for_each_returns
    (fun best next_node =>
       for_each (consider G budget (current_node s) (current_cost s) next_node)
         mode_names best)
    (set_order (remaining_nodes s))) with (s := @None (node * num * string))
    as [best Hscan].
  { intros best n Hn. apply for_each_returns. intros best' m Hm.
    apply consider_readable. apply Hread; [by apply Hord|done]. }
  pose proof Hscan as Hscan'. fold (scan set_order G budget (current_node s)
    (remaining_nodes s) (current_cost s)) in Hscan'.
  unfold scan. rewrite Hscan. simpl.
  apply scan_origin in Hscan' as [->|(n & m & t & c & Hn & _ & [Hhop _] & ->)];
    [eauto|].
  apply hop_Some in Hhop as (d & Hd & _ & Ht & Hc).
  unfold edge_item. unfold get_edge_data in Hd. rewrite Hd, Ht. simpl.
  rewrite Hc. simpl. rewrite bool_decide_eq_true_2 by (by apply Hord). eauto.
Qed.

(** ** The graph builder *)

Lemma last_mode_is_last :
  last transport_modes =
  Some ("public_transport",
        {| cost_per_km := PFloat (1 # 2); speed_kmh := PInt 20 |}).
Proof. reflexivity. Qed.

Lemma calculate_distance_sym pow_half loc1 loc2 :
  _calculate_distance pow_half loc1 loc2 = _calculate_distance pow_half loc2 loc1.
Proof.
  unfold _calculate_distance.
  destruct (coordinates loc1) as [lat1 lon1], (coordinates loc2) as [lat2 lon2].
  f_equal. apply Qred_complete. ring.
Qed.

Lemma dom_edge_kwargs mode dist t c : dom (edge_kwargs mode dist t c) = attr_keys.
Proof.
  unfold edge_kwargs, attr_keys. rewrite !dom_insert_L, dom_singleton_L. set_solver.
Qed.

Lemma edge_kwargs_union mode dist t c (d : gmap string attr) :
  dom d ⊆ attr_keys -> edge_kwargs mode dist t c ∪ d = edge_kwargs mode dist t c.
Proof.
  intros Hd. apply map_eq. intros k. rewrite lookup_union.
  destruct (edge_kwargs mode dist t c !! k) as [x|] eqn:Hk.
  - by destruct (d !! k).
  - apply not_elem_of_dom in Hk. rewrite dom_edge_kwargs in Hk.
    assert (k ∉ dom d) as Hk' by set_solver.
    apply not_elem_of_dom in Hk'. by rewrite Hk'.
Qed.

Lemma edge_kwargs_mode_key mode dist t c m :
  m ∈ mode_names -> edge_kwargs mode dist t c !! m = None.
Proof.
  intros Hm. apply not_elem_of_dom. rewrite dom_edge_kwargs.
  unfold attr_keys. rewrite !not_elem_of_union, !not_elem_of_singleton.
  unfold mode_names, transport_modes in Hm; simpl in Hm.
  repeat (apply elem_of_cons in Hm as [->|Hm]); [done..|].
  by apply elem_of_nil in Hm.
Qed.

Lemma edge_kwargs_truthy mode dist t c : dict_truthy (edge_kwargs mode dist t c) = true.
Proof.
  unfold dict_truthy. apply negb_true_iff, bool_decide_eq_false.
  intros Hsize. apply map_size_empty_iff in Hsize.
  assert (Hd : dom (edge_kwargs mode dist t c) = ∅) by (by rewrite Hsize, dom_empty_L).
  rewrite dom_edge_kwargs in Hd. unfold attr_keys in Hd. set_solver.
Qed.

Lemma add_node_elem ns u x : x ∈ add_node ns u <-> x ∈ ns \/ x = u.
Proof.
  unfold add_node. case_bool_decide as Hu.
  - split; [by left|]. by intros [?| ->].
  - rewrite elem_of_app, list_elem_of_singleton. done.
Qed.

Lemma add_node_NoDup ns u : NoDup ns -> NoDup (add_node ns u).
Proof.
  intros Hns. unfold add_node. case_bool_decide as Hu; [done|].
  apply NoDup_app. split_and!; [done| |apply NoDup_singleton].
  intros x Hx Hx'. apply list_elem_of_singleton in Hx'. by subst.
Qed.

Lemma add_edge_nodes G u v kw x :
  x ∈ g_nodes (add_edge G u v kw) <-> x ∈ g_nodes G \/ x = u \/ x = v.
Proof. unfold add_edge; simpl. rewrite !add_node_elem. tauto. Qed.

Lemma add_edge_NoDup G u v kw :
  NoDup (g_nodes G) -> NoDup (g_nodes (add_edge G u v kw)).
Proof. intros. unfold add_edge; simpl. by do 2 apply add_node_NoDup. Qed.

Lemma add_edge_lookup G u v kw k :
  g_adj (add_edge G u v kw) !! k =
  if bool_decide (k = (u, v) \/ k = (v, u))
  then Some (kw ∪ default ∅ (g_adj G !! (u, v)))
  else g_adj G !! k.
Proof.
  unfold add_edge; simpl. case_bool_decide as Hk.
  - destruct (decide (k = (v, u))) as [->|Hne].
    + by rewrite lookup_insert_eq.
    + destruct Hk as [->|?]; [|done].
      rewrite lookup_insert_ne by done. by rewrite lookup_insert_eq.
  - rewrite !lookup_insert_ne; [done|naive_solver..].
Qed.

Lemma add_edge_flat_lookup G u v mode dist t c k :
  edges_flat G ->
  g_adj (add_edge G u v (edge_kwargs mode dist t c)) !! k =
  if bool_decide (k = (u, v) \/ k = (v, u))
  then Some (edge_kwargs mode dist t c)
  else g_adj G !! k.
Proof.
  intros Hflat. rewrite add_edge_lookup. case_bool_decide; [|done].
  f_equal. apply edge_kwargs_union.
  destruct (g_adj G !! (u, v)) as [d|] eqn:Hd; simpl.
  - by eapply Hflat.
  - rewrite dom_empty_L. set_solver.
Qed.

Lemma add_edge_flat G u v mode dist t c :
  edges_flat G -> edges_flat (add_edge G u v (edge_kwargs mode dist t c)).
Proof.
  intros Hflat k d. rewrite add_edge_flat_lookup by done.
  case_bool_decide; [|by apply Hflat].
  intros [= <-]. by rewrite dom_edge_kwargs.
Qed.

Lemma add_mode_edge_eq loc1 loc2 dist G mp :
  add_mode_edge loc1 loc2 dist G mp =
  add_edge G (name loc1) (name loc2) (mode_kwargs mp dist).
Proof. by destruct mp. Qed.

(** The three [add_edge] calls for one ordered pair leave the attributes
    of the last mode on the edge. *)
Lemma add_modes_spec loc1 loc2 dist G :
  edges_flat G ->
  let G' := fold_left (add_mode_edge loc1 loc2 dist) transport_modes G in
  edges_flat G' /\
  (forall x, x ∈ g_nodes G' <-> x ∈ g_nodes G \/ x = name loc1 \/ x = name loc2) /\
  (NoDup (g_nodes G) -> NoDup (g_nodes G')) /\
  (forall k, g_adj G' !! k =
     if bool_decide (k = (name loc1, name loc2) \/ k = (name loc2, name loc1))
     then Some (last_mode_kwargs dist)
     else g_adj G !! k).
Proof.
  intros Hflat. unfold transport_modes. cbn [fold_left].
  rewrite !add_mode_edge_eq. unfold last_mode_kwargs, mode_kwargs.
  set (G1 := add_edge G _ _ _). set (G2 := add_edge G1 _ _ _).
  assert (Hflat1 : edges_flat G1) by by apply add_edge_flat.
  assert (Hflat2 : edges_flat G2) by by apply add_edge_flat.
  split_and!.
  - by apply add_edge_flat.
  - intros x. subst G1 G2. rewrite !add_edge_nodes. tauto.
  - intros Hnd. subst G1 G2. by do 3 apply add_edge_NoDup.
  - intros k. rewrite add_edge_flat_lookup by done.
    case_bool_decide; [done|]. subst G2.
    rewrite add_edge_flat_lookup by done. rewrite bool_decide_eq_false_2 by done.
    subst G1. rewrite add_edge_flat_lookup by done.
    by rewrite bool_decide_eq_false_2 by done.
Qed.

Lemma fold_left_invariant {A B} (f : B -> A -> B) (I : B -> Prop) xs :
  (forall b x, x ∈ xs -> I b -> I (f b x)) ->
  forall b, I b -> I (fold_left f xs b).
Proof.
  induction xs as [|x xs IH]; simpl; intros Hstep b Hb; [done|].
  apply IH; [|apply Hstep; [left|done]].
  intros b' y Hy. apply Hstep. by right.
Qed.

Lemma fold_left_establish {A B} (f : B -> A -> B) (I : B -> Prop)
    (Q : A -> B -> Prop) xs :
  (forall b x, x ∈ xs -> I b -> I (f b x)) ->
  (forall b x, x ∈ xs -> I b -> Q x (f b x)) ->
  (forall x b y, y ∈ xs -> I b -> Q x b -> Q x (f b y)) ->
  forall b, I b -> forall x, x ∈ xs -> Q x (fold_left f xs b).
Proof.
  induction xs as [|y xs IH]; simpl; intros HI Hest Hkeep b Hb x Hx.
  - by apply elem_of_nil in Hx.
  - assert (Hb' : I (f b y)) by (apply HI; [left|done]).
    apply elem_of_cons in Hx as [->|Hx].
    + apply (fold_left_invariant f (fun b0 => I b0 /\ Q y b0)).
      * intros b0 z Hz [? ?]. split; [apply HI; [by right|done]|].
        apply Hkeep; [by right|done..].
      * split; [done|]. apply Hest; [left|done].
    + apply IH; try done.
      * intros b0 z Hz. apply HI. by right.
      * intros b0 z Hz. apply Hest. by right.
      * intros z b0 w Hw. apply Hkeep. by right.
Qed.

Lemma elem_of_enumerate {A} (l : list A) i x :
  (i, x) ∈ enumerate l <-> l !! i = Some x.
Proof.
  unfold enumerate. rewrite elem_of_lookup_imap. split.
  - intros (j & y & [= -> ->] & Hj). done.
  - intros Hi. by exists i, x.
Qed.

Section Builder.

Variable pow_half : Q -> Q.
Variable locs : list Location.

Lemma built_inv_flat G : built_inv pow_half locs G -> edges_flat G.
Proof.
  intros (_ & _ & Hadj) [u v] d Hd.
  apply Hadj in Hd as (? & ? & _ & _ & _ & _ & ->).
  unfold last_mode_kwargs, mode_kwargs. by rewrite dom_edge_kwargs.
Qed.

Lemma add_pair_inv i loc1 j loc2 G :
  loc1 ∈ locs -> loc2 ∈ locs -> built_inv pow_half locs G ->
  built_inv pow_half locs (add_pair pow_half i loc1 G (j, loc2)).
Proof.
  intros H1 H2 Hinv. unfold add_pair. case_bool_decide; [|done].
  pose proof (built_inv_flat _ Hinv) as Hflat.
  destruct Hinv as (Hnd & Hnodes & Hadj).
  destruct (add_modes_spec loc1 loc2 (_calculate_distance pow_half loc1 loc2)
              G Hflat) as (_ & Hn' & Hnd' & Hadj').
  split_and!.
  - by apply Hnd'.
  - intros u Hu. apply Hn' in Hu as [Hu|[->| ->]]; eauto.
  - intros u v d. rewrite Hadj'. case_bool_decide as Hk; [|by apply Hadj].
    intros [= <-]. destruct Hk as [[= -> ->]|[= -> ->]].
    + by exists loc1, loc2.
    + exists loc2, loc1. split_and!; try done.
      by rewrite calculate_distance_sym.
Qed.

Lemma add_pair_mono i loc1 jl G k :
  built_inv pow_half locs G -> is_Some (g_adj G !! k) ->
  is_Some (g_adj (add_pair pow_half i loc1 G jl) !! k).
Proof.
  intros Hinv Hk. destruct jl as [j loc2].
  unfold add_pair. case_bool_decide; [|done].
  destruct (add_modes_spec loc1 loc2 (_calculate_distance pow_half loc1 loc2)
              G (built_inv_flat _ Hinv)) as (_ & _ & _ & Hadj').
  rewrite Hadj'. by case_bool_decide.
Qed.

Lemma add_pair_edge i loc1 j loc2 G :
  built_inv pow_half locs G -> i ≠ j ->
  is_Some (g_adj (add_pair pow_half i loc1 G (j, loc2)) !! (name loc1, name loc2)).
Proof.
  intros Hinv Hij. unfold add_pair. rewrite bool_decide_eq_true_2 by done.
  destruct (add_modes_spec loc1 loc2 (_calculate_distance pow_half loc1 loc2)
              G (built_inv_flat _ Hinv)) as (_ & _ & _ & Hadj').
  rewrite Hadj'. rewrite bool_decide_eq_true_2 by (by left). done.
Qed.

Local Abbreviation row := (build_row pow_half locs).

Lemma row_inv il G :
  il ∈ enumerate locs -> built_inv pow_half locs G ->
  built_inv pow_half locs (row G il).
Proof.
  destruct il as [i loc1]. rewrite elem_of_enumerate. intros Hi.
  unfold build_row. apply fold_left_invariant. intros G' [j loc2] Hj.
  apply elem_of_enumerate in Hj.
  apply add_pair_inv; by eapply list_elem_of_lookup_2.
Qed.

Lemma row_mono il G k :
  il ∈ enumerate locs -> built_inv pow_half locs G ->
  is_Some (g_adj G !! k) -> is_Some (g_adj (row G il) !! k).
Proof.
  intros Hil Hinv Hk. destruct il as [i loc1].
  apply elem_of_enumerate in Hil.
  enough (built_inv pow_half locs (row G (i, loc1)) /\
          is_Some (g_adj (row G (i, loc1)) !! k)) by tauto.
  unfold build_row.
  apply (fold_left_invariant _
    (fun G' => built_inv pow_half locs G' /\ is_Some (g_adj G' !! k)));
    [|done].
  intros G' [j loc2] Hj [? ?]. apply elem_of_enumerate in Hj. split.
  - apply add_pair_inv; [by eapply list_elem_of_lookup_2..|done].
  - by apply add_pair_mono.
Qed.

Lemma row_edges i loc1 G j loc2 :
  locs !! i = Some loc1 -> built_inv pow_half locs G ->
  locs !! j = Some loc2 -> i ≠ j ->
  is_Some (g_adj (row G (i, loc1)) !! (name loc1, name loc2)).
Proof.
  intros Hi Hinv Hj. apply elem_of_enumerate in Hj.
  refine (fold_left_establish _ (built_inv pow_half locs)
    (fun jl G' => i ≠ fst jl ->
       is_Some (g_adj G' !! (name loc1, name (snd jl))))
    _ _ _ _ G Hinv (j, loc2) Hj).
  - intros G' [j' loc2'] Hj'. apply elem_of_enumerate in Hj'.
    apply add_pair_inv; by eapply list_elem_of_lookup_2.
  - intros G' [j' loc2'] _ Hinv'. by apply add_pair_edge.
  - intros [j' loc2'] G' jl' _ Hinv' HQ Hij.
    apply add_pair_mono; [done|]. by apply HQ.
Qed.

Local Abbreviation built := (build pow_half locs).

Lemma empty_graph_inv : built_inv pow_half locs empty_graph.
Proof.
  split_and!.
  - apply NoDup_nil_2.
  - intros u Hu. by apply elem_of_nil in Hu.
  - intros u v d Hd. simpl in Hd. by rewrite lookup_empty in Hd.
Qed.

Lemma built_graph_inv : built_inv pow_half locs built.
Proof.
  unfold build. apply fold_left_invariant; [|apply empty_graph_inv].
  intros G il Hil. by apply row_inv.
Qed.

Lemma built_graph_edges i j loc1 loc2 :
  locs !! i = Some loc1 -> locs !! j = Some loc2 -> i ≠ j ->
  is_Some (g_adj built !! (name loc1, name loc2)).
Proof.
  intros Hi Hj Hij. apply elem_of_enumerate in Hi. revert j loc2 Hj Hij.
  refine (fold_left_establish _ (built_inv pow_half locs)
    (fun il G' => forall j loc2, locs !! j = Some loc2 -> fst il ≠ j ->
       is_Some (g_adj G' !! (name (snd il), name loc2)))
    _ _ _ _ empty_graph empty_graph_inv (i, loc1) Hi).
  - intros G il Hil. by apply row_inv.
  - intros G [i' loc1'] Hil Hinv j loc2 Hj Hij.
    apply elem_of_enumerate in Hil. by apply (row_edges i' loc1' G j loc2).
  - intros il G il' Hil' Hinv HQ j loc2 Hj Hij.
    apply row_mono; [done..|]. by apply (HQ j).
Qed.

(** Two distinct nodes of the built graph are joined by an edge. *)
Lemma built_graph_adjacent u v :
  u ∈ g_nodes built -> v ∈ g_nodes built -> u ≠ v ->
  is_Some (g_adj built !! (u, v)).
Proof.
  intros Hu Hv Huv. destruct built_graph_inv as (_ & Hnodes & _).
  apply Hnodes in Hu as (loc1 & H1 & <-). apply Hnodes in Hv as (loc2 & H2 & <-).
  apply list_elem_of_lookup in H1 as [i Hi]. apply list_elem_of_lookup in H2 as [j Hj].
  apply (built_graph_edges i j); [done..|]. intros ->. congruence.
Qed.

End Builder.

Lemma create_travel_graph_inv pow_half stops starting_point :
  built_inv pow_half (stop_locations stops starting_point)
    (_create_travel_graph pow_half stops starting_point).
Proof. apply built_graph_inv. Qed.

Lemma create_travel_graph_adjacent pow_half stops starting_point u v :
  let G := _create_travel_graph pow_half stops starting_point in
  u ∈ g_nodes G -> v ∈ g_nodes G -> u ≠ v -> is_Some (g_adj G !! (u, v)).
Proof. apply built_graph_adjacent. Qed.

(** ** The selector on a graph made by the builder *)

Lemma flat_dict_truthy (d : gmap string attr) :
  dom d = attr_keys -> dict_truthy d = true.
Proof.
  intros Hd. unfold dict_truthy. apply negb_true_iff, bool_decide_eq_false.
  intros Hsize. apply map_size_empty_iff in Hsize. subst d.
  rewrite dom_empty_L in Hd. unfold attr_keys in Hd. set_solver.
Qed.

Lemma flat_dict_mode_key (d : gmap string attr) m k :
  dom d = attr_keys -> m ∈ mode_names -> getitem2 d m k = Raise KeyError.
Proof.
  intros Hd Hm. unfold getitem2.
  assert (d !! m = None) as ->; [|done].
  apply not_elem_of_dom. rewrite Hd.
  unfold attr_keys. rewrite !not_elem_of_union, !not_elem_of_singleton.
  unfold mode_names, transport_modes in Hm; simpl in Hm.
  repeat (apply elem_of_cons in Hm as [->|Hm]); [done..|].
  by apply elem_of_nil in Hm.
Qed.

Lemma dom_last_mode_kwargs dist : dom (last_mode_kwargs dist) = attr_keys.
Proof. unfold last_mode_kwargs, mode_kwargs. apply dom_edge_kwargs. Qed.

Lemma for_each_raise {A S} (body : S -> A -> outcome S) x xs s e :
  body s x = Raise e -> for_each body (x :: xs) s = Raise e.
Proof. intros Hb. cbn [for_each]. by rewrite Hb. Qed.

Lemma consider_flat_dict G budget current cost_so_far n best m d :
  get_edge_data G current n = Some d -> dom d = attr_keys -> m ∈ mode_names ->
  consider G budget current cost_so_far n best m = Raise KeyError.
Proof.
  intros Hd Hdom Hm. unfold consider. rewrite Hd.
  rewrite flat_dict_truthy by done. by rewrite flat_dict_mode_key.
Qed.

Section BuiltSelector.

Variable set_order : list node -> list node.
Hypothesis set_order_elem : forall l x, x ∈ set_order l <-> x ∈ l.

Variable G : Graph.
Hypothesis nodes_NoDup : NoDup (g_nodes G).
Hypothesis adjacent_flat : forall u v,
  u ∈ g_nodes G -> v ∈ g_nodes G -> u ≠ v ->
  exists d, g_adj G !! (u, v) = Some d /\ dom d = attr_keys.

Lemma flat_graph_scan budget current remaining cost_so_far :
  current ∈ g_nodes G -> remaining ≠ [] ->
  (forall n, n ∈ remaining -> n ∈ g_nodes G /\ n ≠ current) ->
  scan set_order G budget current remaining cost_so_far = Raise KeyError.
Proof.
  intros Hcur Hne Hrem. unfold scan.
  destruct (set_order remaining) as [|y ys] eqn:Hord.
  { destruct remaining as [|x xs]; [done|].
    assert (x ∈ set_order (x :: xs)) as Hx by (apply set_order_elem; left).
    rewrite Hord in Hx. by apply elem_of_nil in Hx. }
  assert (Hy : y ∈ remaining) by (apply set_order_elem; rewrite Hord; left).
  apply Hrem in Hy as [Hy Hyc].
  destruct (adjacent_flat current y) as (d & Hd & Hdom); [done..|].
  apply for_each_raise, for_each_raise.
  eapply consider_flat_dict; [done..|]. left.
Qed.

Lemma flat_graph_key_error budget :
  (2 <= length (g_nodes G))%nat ->
  _calculate_optimal_path set_order G budget = Raise KeyError.
Proof.
  intros Hlen. unfold _calculate_optimal_path. pose proof nodes_NoDup as Hnd.
  assert (exists n0 n1 rest, g_nodes G = n0 :: n1 :: rest)
    as (n0 & n1 & rest & Hnodes).
  { destruct (g_nodes G) as [|n0 [|n1 rest]]; simpl in Hlen; try lia. eauto. }
  rewrite Hnodes in Hnd |- *.
  assert (Hscan : scan set_order G budget n0 (remove_dups (n1 :: rest))
                    (PInt 0) = Raise KeyError).
  { apply flat_graph_scan.
    - rewrite Hnodes. left.
    - intros Hnil. assert (n1 ∈ remove_dups (n1 :: rest)) as Hn1
        by (apply elem_of_remove_dups; left).
      rewrite Hnil in Hn1. by apply elem_of_nil in Hn1.
    - intros n Hn. rewrite elem_of_remove_dups in Hn. rewrite Hnodes.
      apply NoDup_cons in Hnd as [Hn0 _].
      split; [by right|]. intros ->. by apply Hn0. }
  unfold initial_state.
  destruct (remove_dups (n1 :: rest)) as [|x xs] eqn:Hrem.
  { assert (n1 ∈ remove_dups (n1 :: rest)) as Hn1
      by (apply elem_of_remove_dups; left).
    rewrite Hrem in Hn1. by apply elem_of_nil in Hn1. }
  cbn [length while_remaining remaining_nodes].
  unfold loop_body. cbn [current_node remaining_nodes current_cost].
  by rewrite Hscan.
Qed.

End BuiltSelector.

Lemma built_graph_key_error pow_half set_order stops starting_point budget :
  (forall l x, x ∈ set_order l <-> x ∈ l) ->
  let G := _create_travel_graph pow_half stops starting_point in
  (2 <= length (g_nodes G))%nat ->
  _calculate_optimal_path set_order G budget = Raise KeyError.
Proof.
  intros Hord G. apply flat_graph_key_error; [done| |].
  - apply create_travel_graph_inv.
  - intros u v Hu Hv Huv.
    destruct (create_travel_graph_adjacent pow_half stops starting_point u v)
      as [d Hd]; [done..|].
    exists d. split; [done|].
    destruct (create_travel_graph_inv pow_half stops starting_point)
      as (_ & _ & Hadj).
    apply Hadj in Hd as (? & ? & _ & _ & _ & _ & ->). apply dom_last_mode_kwargs.
Qed.

(** C9: in a graph made by [_create_travel_graph], the edge between two
    locations with different names carries exactly the keys [mode],
    [distance], [time] and [cost], with the values of the mode iterated last
    (each [add_edge] overwrote those of the mode before); no mode name is a
    key of it.  Hence, as soon as the graph has a node besides the start
    node, the selector raises [KeyError] instead of returning a path. *)
Theorem C9_built_graph_raises_key_error pow_half set_order stops
    starting_point budget :
  (forall l x, x ∈ set_order l <-> x ∈ l) ->
  let locations := stop_locations stops starting_point in
  let G := _create_travel_graph pow_half stops starting_point in
  (forall loc1 loc2, loc1 ∈ locations -> loc2 ∈ locations ->
     name loc1 ≠ name loc2 ->
     exists loc1' loc2', loc1' ∈ locations /\ loc2' ∈ locations /\
       name loc1' = name loc1 /\ name loc2' = name loc2 /\
       get_edge_data G (name loc1) (name loc2) =
       Some (last_mode_kwargs (_calculate_distance pow_half loc1' loc2'))) /\
  (forall dist, dom (last_mode_kwargs dist) = attr_keys /\
     forall m, m ∈ mode_names -> last_mode_kwargs dist !! m = None) /\
  ((2 <= length (g_nodes G))%nat ->
   _calculate_optimal_path set_order G budget = Raise KeyError).
Proof.
  intros Hord locations G. split_and!.
  - intros loc1 loc2 H1 H2 Hne.
    apply list_elem_of_lookup in H1 as [i Hi].
    apply list_elem_of_lookup in H2 as [j Hj].
    destruct (built_graph_edges pow_half locations i j loc1 loc2) as [d Hd];
      [done..|by intros ->; simplify_eq|].
    destruct (create_travel_graph_inv pow_half stops starting_point)
      as (_ & _ & Hadj).
    pose proof Hd as Hd'.
    apply Hadj in Hd' as (loc1' & loc2' & ? & ? & ? & ? & ->).
    by exists loc1', loc2'.
  - intros dist. split; [apply dom_last_mode_kwargs|].
    intros m Hm. unfold last_mode_kwargs, mode_kwargs.
    by apply edge_kwargs_mode_key.
  - by apply built_graph_key_error.
Qed.

(** ** The scheduler *)

Lemma ItineraryStop_init_incomplete kw :
  kw_activity_type kw = None -> ItineraryStop_init kw = Raise ValidationError.
Proof.
  intros Hact. unfold ItineraryStop_init. rewrite Hact.
  destruct (kw_location kw) as [[?|?]|]; try done.
  destruct (kw_start_time kw); try done. by destruct (kw_end_time kw).
Qed.

Lemma minutes_to_time_cases minutes :
  (exists t, _minutes_to_time minutes = Return t) \/
  _minutes_to_time minutes = Raise TypeError \/
  _minutes_to_time minutes = Raise ValueError.
Proof.
  unfold _minutes_to_time. destruct minutes as [z|q]; simpl; [|by right; left].
  case_bool_decide; [left; eauto|right; by right].
Qed.

Lemma minutes_to_time_int z :
  0 <= z < 1440 ->
  _minutes_to_time (PInt z) = Return {| hour := z / 60; minute := z mod 60 |}.
Proof.
  intros Hz. unfold _minutes_to_time; simpl.
  rewrite bool_decide_eq_true_2; [done|].
  pose proof (Z.mod_pos_bound z 60). split; [|lia].
  split; [apply Z.div_pos; lia|apply Z.div_lt_upper_bound; lia].
Qed.

Lemma fits_num_le clock seg end_minutes :
  num_le (num_add (num_add clock (seg_time seg)) (PInt 60)) end_minutes = true
  <-> fits clock seg end_minutes.
Proof.
  unfold fits. rewrite num_le_spec, !num_val_add.
  change (num_val (PInt 60)) with 60%Q. done.
Qed.

(** The turn of the loop for a segment that fits raises. *)
Lemma schedule_commit_raises seg path clock end_minutes scheduled :
  fits clock seg end_minutes ->
  exists e, schedule_loop (seg :: path) clock end_minutes scheduled = Raise e /\
            (e = TypeError \/ e = ValueError \/ e = ValidationError).
Proof.
  intros Hfits. apply fits_num_le in Hfits. cbn [schedule_loop]. rewrite Hfits.
  destruct (minutes_to_time_cases (num_add clock (seg_time seg)))
    as [[st ->]|[-> | ->]]; simpl; [|eauto..].
  destruct (minutes_to_time_cases
              (num_add (num_add clock (seg_time seg)) (PInt 60)))
    as [[et ->]|[-> | ->]]; simpl; eauto.
Qed.

(** So the loop returns only what was scheduled when it was entered. *)
Lemma schedule_loop_returns path clock end_minutes scheduled stops :
  schedule_loop path clock end_minutes scheduled = Return stops ->
  stops = scheduled.
Proof.
  destruct path as [|seg path]; cbn [schedule_loop]; [by intros [= ->]|].
  destruct (num_le _ end_minutes) eqn:Hfits; [|by intros [= ->]].
  apply fits_num_le in Hfits.
  destruct (schedule_commit_raises seg path clock end_minutes scheduled Hfits)
    as (e & He & _).
  cbn [schedule_loop] in He. apply fits_num_le in Hfits. rewrite Hfits in He.
  by rewrite He.
Qed.

Lemma assign_time_slots_returns path start_time' end_time' stops :
  _assign_time_slots path start_time' end_time' = Return stops -> stops = [].
Proof. apply schedule_loop_returns. Qed.

(** C10: when the first segment of the path fits the window,
    [_assign_time_slots] raises while it builds the first stop, a
    [ValidationError] of the schema when the arrival time is a valid clock
    time in minutes: the call gives a node name for [location] and neither
    [activity_type] nor [status].  So the scheduler never returns a
    non-empty list of stops. *)
Theorem C10_scheduler_never_commits seg rest start_time' end_time' :
  fits (time_minutes start_time') seg (time_minutes end_time') ->
  (exists e, _assign_time_slots (seg :: rest) start_time' end_time' = Raise e /\
             (e = TypeError \/ e = ValueError \/ e = ValidationError)) /\
  (forall z, seg_time seg = PInt z ->
     0 <= minutes_of start_time' + z -> minutes_of end_time' < 1440 ->
     _assign_time_slots (seg :: rest) start_time' end_time' =
     Raise ValidationError) /\
  (forall path st et stops,
     _assign_time_slots path st et = Return stops -> stops = []).
Proof.
  intros Hfits. split_and!.
  - by apply schedule_commit_raises.
  - intros z Hz Hlo Hhi. unfold _assign_time_slots. cbn [schedule_loop].
    pose proof Hfits as Hle. apply fits_num_le in Hle. rewrite Hle.
    unfold fits, time_minutes, minutes_of in *. rewrite Hz in Hfits |- *.
    simpl in Hfits. rewrite <- inject_Z_plus in Hfits.
    change 60%Q with (inject_Z 60) in Hfits.
    rewrite <- inject_Z_plus, <- Zle_Qle in Hfits.
    cbn [num_add]. rewrite !minutes_to_time_int by lia. done.
  - apply assign_time_slots_returns.
Qed.

(** C2, at a path of one segment that fits the window 09:00-18:00: the
    scheduler raises instead of committing the stop from 09:30 to 10:30. *)
Theorem C2_fitting_segment_raises :
  fits (time_minutes nine) walk_A_B (time_minutes eighteen) /\
  _assign_time_slots [walk_A_B] nine eighteen = Raise ValidationError.
Proof. split; [by vm_compute|reflexivity]. Qed.

(** ** The whole pipeline *)

Lemma total_cost_nil : _calculate_total_cost [] = PInt 0.
Proof. reflexivity. Qed.

(** On the graphs of the builder the selector does not depend on the
    budget: it raises [IndexError] without nodes, returns the empty path
    with one node and raises [KeyError] with more. *)
Lemma built_graph_selector pow_half set_order stops starting_point budget :
  (forall l x, x ∈ set_order l <-> x ∈ l) ->
  let G := _create_travel_graph pow_half stops starting_point in
  _calculate_optimal_path set_order G budget =
  match g_nodes G with
  | [] => Raise IndexError
  | [_] => Return []
  | _ :: _ :: _ => Raise KeyError
  end.
Proof.
  intros Hord G.
  destruct (g_nodes G) as [|n0 [|n1 rest]] eqn:Hnodes.
  - unfold _calculate_optimal_path. by rewrite Hnodes.
  - unfold _calculate_optimal_path. by rewrite Hnodes.
  - apply built_graph_key_error; [done|]. fold G. rewrite Hnodes. simpl. lia.
Qed.

(** C5, at two stops A (0, 0) and B (3, 4): the edge between them has no
    entry for any mode; it carries the plain attributes of the last mode
    only.  And the graph of a single stop has no node at all. *)
Theorem C5_edge_keeps_last_mode_only pow_half :
  let G := _create_travel_graph pow_half two_stops None in
  g_nodes G = ["A"; "B"] /\
  (get_edge_data G "A" "B" ≫= (.!! "walking")) = None /\
  (get_edge_data G "A" "B" ≫= (.!! "taxi")) = None /\
  (get_edge_data G "A" "B" ≫= (.!! "public_transport")) = None /\
  (get_edge_data G "A" "B" ≫= (.!! "mode")) = Some (AStr "public_transport") /\
  hop G "A" "B" "walking" = None /\
  g_nodes (_create_travel_graph pow_half
             [sample_stop (sample_location "A" 0 0)] None) = [].
Proof. split_and!; by vm_compute. Qed.

(** ** The properties at sample inputs *)

Lemma list_order_elem l x : x ∈ list_order l <-> x ∈ l.
Proof. done. Qed.

Lemma C9_built_graph_raises_key_error_witness :
  _calculate_optimal_path list_order
    (_create_travel_graph sample_pow_half two_stops None) (PInt 100) =
  Raise KeyError.
Proof.
  destruct (C9_built_graph_raises_key_error sample_pow_half list_order
              two_stops None (PInt 100) list_order_elem) as (_ & _ & Hraise).
  apply Hraise. vm_compute. lia.
Defined.

Lemma C10_scheduler_never_commits_witness :
  _assign_time_slots [walk_A_B] nine eighteen = Raise ValidationError.
Proof.
  destruct (C10_scheduler_never_commits walk_A_B [] nine eighteen)
    as (_ & Hraise & _).
  - by vm_compute.
  - apply (Hraise 30); [reflexivity|by vm_compute..].
Defined.

(** ** Runs of the code on the sample inputs *)

(** With budget 100 every hop is affordable: the selector takes the mode
    with the least [time + 10 * cost] to the nearer node first. *)
Example selector_large_budget :
  _calculate_optimal_path list_order sample_graph (PInt 100) =
  Return
    [ {| seg_from := "A"; seg_to := "B"; seg_mode := "public_transport";
         seg_time := PInt 6; seg_cost := PInt 2 |};
      {| seg_from := "B"; seg_to := "C"; seg_mode := "public_transport";
         seg_time := PInt 9; seg_cost := PInt 3 |} ].
Proof. by vm_compute. Qed.

(** With budget 0 no hop of [sample_graph] is affordable. *)
Example selector_no_budget :
  _calculate_optimal_path list_order sample_graph (PInt 0) = Return [].
Proof. by vm_compute. Qed.

(** The path for budget 100 given to the scheduler. *)
Example scheduler_on_selected_path :
  (path ← _calculate_optimal_path list_order sample_graph (PInt 100);
   _assign_time_slots path nine eighteen) = Raise ValidationError.
Proof. by vm_compute. Qed.

(** A travel time that is a float, as all those of the builder are. *)
Example scheduler_float_travel_time :
  _assign_time_slots
    [ {| seg_from := "A"; seg_to := "B"; seg_mode := "walking";
         seg_time := PFloat 30; seg_cost := PFloat 0 |} ] nine eighteen =
  Raise TypeError.
Proof. by vm_compute. Qed.

(** A window shorter than a visit: nothing is scheduled, nothing raised. *)
Example scheduler_short_window :
  _assign_time_slots [walk_A_B] nine {| hour := 9; minute := 59 |} = Return [].
Proof. by vm_compute. Qed.

Example pipeline_two_stops pow_half :
  optimize_route pow_half list_order two_stops (PInt 100) nine eighteen None =
  Raise KeyError.
Proof. by vm_compute. Qed.

Example pipeline_one_stop pow_half :
  optimize_route pow_half list_order [sample_stop (sample_location "A" 0 0)]
    (PInt 100) nine eighteen None =
  Raise IndexError.
Proof. by vm_compute. Qed.

(** Two stops with one name make a single node with a loop. *)
Example pipeline_one_name pow_half :
  optimize_route pow_half list_order
    [sample_stop (sample_location "A" 0 0);
     sample_stop (sample_location "A" 1 1)]
    (PInt 100) nine eighteen None =
  Return ([], PInt 0).
Proof. by vm_compute. Qed.

(** ** More on the selector *)

Lemma while_remaining_final set_order fuel G budget s path :
  while_remaining set_order fuel G budget s = Return path ->
  exists s', reaches set_order G budget s s' /\ optimal_path s' = path /\
    (remaining_nodes s' = [] \/ loop_body set_order G budget s' = Return None).
Proof.
  revert s. induction fuel as [|fuel IH]; intros s; simpl;
    destruct (remaining_nodes s) as [|x xs] eqn:Hrem; intros Hrun.
  1, 3: simplify_eq; exists s; split_and!; [apply reaches_here|done|by left].
  { done. }
  destruct (loop_body set_order G budget s) as [[s1|]| |] eqn:Hbody;
    simpl in Hrun; try done.
  - destruct (IH s1 Hrun) as (s' & Hreach & Hpath & Hend).
    exists s'. split_and!; [|done..].
    eapply reaches_turn; [|done..]. by rewrite Hrem.
  - simplify_eq. exists s. split_and!; [apply reaches_here|done|by right].
Qed.

Lemma reaches_invariant set_order G budget (I : loop_state -> Prop) :
  (forall s s', I s -> remaining_nodes s <> [] ->
     loop_body set_order G budget s = Return (Some s') -> I s') ->
  forall s s', reaches set_order G budget s s' -> I s -> I s'.
Proof.
  intros Hstep s s' Hreach. induction Hreach as [|s s1 s2 Hne Hbody _ IH];
    [done|]. intros Hs. apply IH. by eapply Hstep.
Qed.

Lemma path_end_snoc start path seg : path_end start (path ++ [seg]) = seg_to seg.
Proof. unfold path_end. by rewrite last_snoc. Qed.

Lemma path_end_cons start seg path :
  path_end start (seg :: path) = path_end (seg_to seg) path.
Proof.
  unfold path_end. destruct path as [|seg' path]; [done|].
  rewrite last_cons_cons.
  destruct (last (seg' :: path)) eqn:Hlast; [done|].
  by apply last_None in Hlast.
Qed.

Lemma chain_snoc start path seg :
  chain start (path ++ [seg]) <->
  chain start path /\ seg_from seg = path_end start path.
Proof.
  revert start. induction path as [|x path IH]; intros start; simpl.
  - unfold path_end; simpl. tauto.
  - rewrite IH, path_end_cons. tauto.
Qed.

(** The turn that commits a hop, in terms of the hop. *)
Lemma loop_body_commit set_order G budget s s' :
  loop_body set_order G budget s = Return (Some s') ->
  exists seg,
    seg_from seg = current_node s /\ seg_to seg ∈ remaining_nodes s /\
    hop_of_graph G seg /\
    within_budget budget (current_cost s) (seg_cost seg) /\
    current_node s' = seg_to seg /\
    remaining_nodes s' = filter (fun x => x ≠ seg_to seg) (remaining_nodes s) /\
    current_cost s' = num_add (current_cost s) (seg_cost seg) /\
    optimal_path s' = optimal_path s ++ [seg].
Proof.
  intros Hbody. apply loop_body_Return in Hbody as (best & _ & Hbest).
  destruct best as [[[n sc] m]|]; [|done].
  destruct Hbest as (Hn & Hm & t & c & [Hhop Hin] & _ & [= ->]).
  by exists {| seg_from := current_node s; seg_to := n; seg_mode := m;
               seg_time := t; seg_cost := c |}.
Qed.

Lemma shape_inv_step set_order G budget start to_visit s s' :
  shape_inv G start to_visit s ->
  loop_body set_order G budget s = Return (Some s') ->
  shape_inv G start to_visit s'.
Proof.
  intros (Hchain & Hcur & Hrem & Hto & Hvis & Hsub & Hcov & Hhops) Hbody.
  apply loop_body_commit in Hbody
    as (seg & Hfrom & Hn & Hhop & _ & Hcur' & Hrem' & _ & Hpath').
  unfold shape_inv. rewrite Hcur', Hrem', Hpath', map_app. simpl.
  split_and!.
  - apply chain_snoc. split; [done|]. by rewrite Hfrom.
  - by rewrite path_end_snoc.
  - by apply NoDup_filter.
  - apply NoDup_app. split_and!; [done| |apply NoDup_singleton].
    intros x Hx Hx'. apply list_elem_of_singleton in Hx' as ->.
    by apply Hvis in Hx as [_ Hx].
  - intros x Hx. rewrite list_elem_of_filter.
    apply elem_of_app in Hx as [Hx|Hx].
    + apply Hvis in Hx as [? Hx]. split; [done|]. by intros [_ ?].
    + apply list_elem_of_singleton in Hx as ->. split; [by apply Hsub|].
      by intros [Hne _].
  - intros x Hx. apply list_elem_of_filter in Hx as [_ Hx]. by apply Hsub.
  - intros x Hx. rewrite elem_of_app, list_elem_of_singleton, list_elem_of_filter.
    destruct (Hcov x Hx) as [?|?]; [by left; left|].
    destruct (decide (x = seg_to seg)) as [->|?]; [by left; right|by right].
  - apply Forall_app. split; [done|]. by apply Forall_singleton.
Qed.

Lemma shape_inv_initial G start rest :
  shape_inv G start (remove_dups rest) (initial_state start rest).
Proof.
  unfold shape_inv, initial_state; simpl. split_and!; try done.
  - apply NoDup_remove_dups.
  - apply NoDup_nil_2.
  - intros x Hx. by apply elem_of_nil in Hx.
  - intros x Hx. by right.
Qed.

(** What holds when the selector returns: the variables at the end. *)
Lemma selector_final set_order G budget path :
  _calculate_optimal_path set_order G budget = Return path ->
  exists start rest s,
    g_nodes G = start :: rest /\
    reaches set_order G budget (initial_state start rest) s /\
    optimal_path s = path /\
    shape_inv G start (remove_dups rest) s /\
    (remaining_nodes s = [] \/ loop_body set_order G budget s = Return None).
Proof.
  unfold _calculate_optimal_path. intros Hrun.
  destruct (g_nodes G) as [|start rest]; [done|].
  apply while_remaining_final in Hrun as (s & Hreach & Hpath & Hend).
  exists start, rest, s. split_and!; try done.
  apply (reaches_invariant set_order G budget
           (shape_inv G start (remove_dups rest)) ) with (2:=Hreach).
  - intros s1 s2 Hs _. by apply shape_inv_step.
  - apply shape_inv_initial.
Qed.

(** X1: a path that the selector returns starts at the first node of the
    graph, each hop leaves from where the one before arrived, no node is
    arrived at twice, every node arrived at is one of the other nodes of the
    graph, and there are at most as many hops as other nodes. *)
Theorem selector_path_is_chain set_order G budget path :
  _calculate_optimal_path set_order G budget = Return path ->
  exists start rest,
    g_nodes G = start :: rest /\
    chain start path /\
    NoDup (map seg_to path) /\
    (forall x, x ∈ map seg_to path -> x ∈ rest) /\
    (length path <= length (remove_dups rest))%nat.
Proof.
  intros Hrun.
  apply selector_final in Hrun
    as (start & rest & s & Hnodes & Hreach & <- & Hshape & _).
  destruct Hshape as (Hchain & _ & _ & Hto & Hvis & _).
  exists start, rest. split_and!; try done.
  - intros x Hx. apply Hvis in Hx as [Hx _]. by rewrite elem_of_remove_dups in Hx.
  - apply reaches_count in Hreach as [_ Hlen]; [|apply NoDup_remove_dups].
    simpl in Hlen. lia.
Qed.

(** X2: every hop of a path that the selector returns is by a mode of the
    catalog and holds the time and the cost that the graph has for this
    mode on the edge from the hop's origin to its destination. *)
Theorem selector_hops_hold_edge_data set_order G budget path :
  _calculate_optimal_path set_order G budget = Return path ->
  Forall (hop_of_graph G) path.
Proof.
  intros Hrun.
  apply selector_final in Hrun as (start & rest & s & _ & _ & <- & Hshape & _).
  by destruct Hshape as (_ & _ & _ & _ & _ & _ & _ & Hhops).
Qed.




(** The loop returns when the data of all edges between nodes can be
    read. *)
Lemma while_remaining_returns set_order G budget :
  (forall l x, x ∈ set_order l <-> x ∈ l) ->
  graph_readable G ->
  forall fuel s,
    (length (remaining_nodes s) <= fuel)%nat ->
    current_node s ∈ g_nodes G ->
    (forall x, x ∈ remaining_nodes s -> x ∈ g_nodes G) ->
    exists path, while_remaining set_order fuel G budget s = Return path.
Proof.
  intros Hord Hread. induction fuel as [|fuel IH]; intros s Hlen Hcur Hrem;
    simpl; destruct (remaining_nodes s) as [|x xs] eqn:Hxs; eauto.
  { simpl in Hlen. lia. }
  destruct (loop_body_readable set_order G budget s Hord) as [r Hbody].
  { intros n m Hn Hm. rewrite Hxs in Hn.
    destruct (get_edge_data G (current_node s) n) as [d|] eqn:Hd; [|done].
    intros Htruthy. by eapply Hread; [| |done..]; [done|apply Hrem]. }
  rewrite Hbody; simpl. destruct r as [s'|]; [|eauto].
  apply loop_body_commit in Hbody
    as (seg & _ & Hn & _ & _ & Hcur' & Hrem' & _ & _).
  apply IH.
  - rewrite Hrem'.
    assert (Hnn : ~ seg_to seg ≠ seg_to seg) by (intros Hne; by apply Hne).
    pose proof (length_filter_lt (fun y => y ≠ seg_to seg) _ _ Hn Hnn) as Hlt.
    rewrite Hxs in Hlt. simpl in Hlt, Hlen. rewrite Hxs. lia.
  - rewrite Hcur'. rewrite Hxs in Hn. by apply Hrem.
  - intros y Hy. rewrite Hrem' in Hy. apply list_elem_of_filter in Hy as [_ Hy].
    rewrite Hxs in Hy. by apply Hrem.
Qed.

(** *** What the selector raises *)

Lemma getitem2_raises d k1 k2 e : getitem2 d k1 k2 = Raise e -> lookup_error e.
Proof.
  unfold getitem2, lookup_error.
  destruct (d !! k1) as [[?|?|inner]|]; try (intros [= <-]; tauto).
  destruct (inner !! k2); [done|]. intros [= <-]; tauto.
Qed.

Lemma for_each_raises {A S} (body : S -> A -> outcome S) (P : exn -> Prop) xs :
  (forall s x e, body s x = Raise e -> P e) ->
  forall s e, for_each body xs s = Raise e -> P e.
Proof.
  intros Hbody. induction xs as [|x xs IH]; intros s e; simpl; [done|].
  destruct (body s x) as [s'|e'|] eqn:Hb; simpl; [apply IH| |done].
  intros [= <-]. by eapply Hbody.
Qed.

(** *** At the sample graphs *)

Lemma selector_path_is_chain_witness :
  exists start rest,
    g_nodes sample_graph = start :: rest /\
    chain start ride_A_B_C /\
    NoDup (map seg_to ride_A_B_C) /\
    (forall x, x ∈ map seg_to ride_A_B_C -> x ∈ rest) /\
    (length ride_A_B_C <= length (remove_dups rest))%nat.
Proof.
  apply (selector_path_is_chain list_order sample_graph (PInt 100)).
  by vm_compute.
Defined.

Lemma selector_hops_hold_edge_data_witness :
  Forall (hop_of_graph sample_graph) ride_A_B_C.
Proof.
  apply (selector_hops_hold_edge_data list_order sample_graph (PInt 100)).
  by vm_compute.
Defined.

Lemma sample_graph_nodes : g_nodes sample_graph = ["A"; "B"; "C"].
Proof. reflexivity. Qed.


Lemma sample_graph_readable : graph_readable sample_graph.
Proof.
  intros u v d m Hu Hv Hd _ Hm. rewrite sample_graph_nodes in Hu, Hv.
  unfold mode_names, transport_modes in Hm; simpl in Hm.
  repeat (apply elem_of_cons in Hu as [->|Hu]); [| | |by apply elem_of_nil in Hu].
  all: repeat (apply elem_of_cons in Hv as [->|Hv]);
    [| | |by apply elem_of_nil in Hv].
  all: match type of Hd with
       | get_edge_data ?G ?u ?v = _ =>
           first
             [ assert (get_edge_data G u v = None) as Hnone
                 by (vm_compute; reflexivity);
               rewrite Hnone in Hd; discriminate Hd
             | assert (d = default ∅ (get_edge_data G u v)) as ->
                 by (by rewrite Hd) ]
       end.
  all: clear Hd;
    repeat (apply elem_of_cons in Hm as [->|Hm]);
    [| | |by apply elem_of_nil in Hm].
  all: eexists _, _; split; vm_compute; reflexivity.
Qed.



(** ** More on the graph builder *)

Lemma add_pair_preserves pow_half (P : Graph -> Prop) i loc1 G jl :
  (forall G' v kw, P G' -> P (add_edge G' (name loc1) v kw)) ->
  P G -> P (add_pair pow_half i loc1 G jl).
Proof.
  intros Hstep HG. destruct jl as [j loc2]. unfold add_pair.
  case_bool_decide; [|done].
  apply fold_left_invariant; [|done].
  intros G' mp _ HG'. rewrite add_mode_edge_eq. by apply Hstep.
Qed.

Lemma build_row_preserves pow_half locs (P : Graph -> Prop) G il :
  (forall G' v kw, P G' -> P (add_edge G' (name (snd il)) v kw)) ->
  P G -> P (build_row pow_half locs G il).
Proof.
  intros Hstep HG. unfold build_row. apply fold_left_invariant; [|done].
  intros G' jl _ HG'. by apply add_pair_preserves.
Qed.

Lemma build_rows_preserve pow_half locs (P : Graph -> Prop) rows G :
  (forall G' u v kw, P G' -> P (add_edge G' u v kw)) ->
  P G -> P (fold_left (build_row pow_half locs) rows G).
Proof.
  intros Hstep HG. apply fold_left_invariant; [|done].
  intros G' il _ HG'. apply build_row_preserves; [|done].
  intros G'' v kw. apply Hstep.
Qed.

Lemma add_edge_undirected G u v kw :
  undirected G -> undirected (add_edge G u v kw).
Proof.
  intros Hsym a b. rewrite !add_edge_lookup.
  rewrite (bool_decide_ext ((b, a) = (u, v) \/ (b, a) = (v, u))
             ((a, b) = (u, v) \/ (a, b) = (v, u)))
    by (split; (intros [[= -> ->]|[= -> ->]]; [by right|by left])).
  case_bool_decide; [done|apply Hsym].
Qed.

Lemma add_edge_edges_in_nodes G u v kw :
  edges_in_nodes G -> edges_in_nodes (add_edge G u v kw).
Proof.
  intros Hin a b. rewrite add_edge_lookup, !add_edge_nodes.
  case_bool_decide as Hk.
  - intros _. destruct Hk as [[= -> ->]|[= -> ->]]; tauto.
  - intros Hab. apply Hin in Hab. tauto.
Qed.

Lemma add_edge_head G u v kw n :
  head (g_nodes G) = Some n -> head (g_nodes (add_edge G u v kw)) = Some n.
Proof.
  unfold add_edge, add_node; simpl. destruct (g_nodes G) as [|x ns]; [done|].
  intros [= ->]. by repeat case_bool_decide.
Qed.

Lemma add_edge_starts_at G u v kw : starts_at u G -> starts_at u (add_edge G u v kw).
Proof.
  intros [Hnil|Hhead]; right; [|by apply add_edge_head].
  unfold add_edge, add_node; simpl. rewrite Hnil; simpl.
  by case_bool_decide.
Qed.

Lemma build_undirected pow_half locs : undirected (build pow_half locs).
Proof.
  unfold build. apply build_rows_preserve; [|done].
  intros G u v kw. apply add_edge_undirected.
Qed.

Lemma build_edges_in_nodes pow_half locs : edges_in_nodes (build pow_half locs).
Proof.
  unfold build. apply build_rows_preserve.
  - intros G u v kw. apply add_edge_edges_in_nodes.
  - intros u v Huv. simpl in Huv. rewrite lookup_empty in Huv. by destruct Huv.
Qed.

(** With fewer than two locations no edge, hence no node, is added. *)
Lemma build_few pow_half locs :
  (length locs < 2)%nat -> build pow_half locs = empty_graph.
Proof.
  destruct locs as [|loc0 [|loc1 locs]]; simpl; [done|done|lia].
Qed.

Lemma build_nodes_named pow_half locs loc :
  (2 <= length locs)%nat -> loc ∈ locs -> name loc ∈ g_nodes (build pow_half locs).
Proof.
  intros Hlen Hloc. apply list_elem_of_lookup in Hloc as [i Hi].
  assert (exists j loc', i ≠ j /\ locs !! j = Some loc') as (j & loc' & Hij & Hj).
  { destruct locs as [|loc0 [|loc1 locs]]; simpl in Hlen; try lia.
    destruct i as [|i]; [by exists 1%nat, loc1|by exists 0%nat, loc0]. }
  destruct (build_edges_in_nodes pow_half locs (name loc) (name loc')); [|done].
  by apply (built_graph_edges pow_half locs i j).
Qed.

Lemma build_head pow_half loc0 loc1 locs :
  head (g_nodes (build pow_half (loc0 :: loc1 :: locs))) = Some (name loc0).
Proof.
  set (all := loc0 :: loc1 :: locs).
  assert (Hrow : head (g_nodes (build_row pow_half all empty_graph (0%nat, loc0)))
                 = Some (name loc0)).
  { assert (starts_at (name loc0)
              (build_row pow_half all empty_graph (0%nat, loc0))) as [Hnil|?];
      [|exfalso|done].
    { apply build_row_preserves; [|by left].
      intros G v kw. apply add_edge_starts_at. }
    assert (edges_in_nodes (build_row pow_half all empty_graph (0%nat, loc0)))
      as Hin.
    { apply build_row_preserves.
      - intros G v kw. apply add_edge_edges_in_nodes.
      - intros u v Huv. simpl in Huv. rewrite lookup_empty in Huv.
        by destruct Huv. }
    destruct (Hin (name loc0) (name loc1)) as [H0 _].
    { by apply (row_edges pow_half all 0 loc0 empty_graph 1 loc1);
        [|apply empty_graph_inv| |]. }
    rewrite Hnil in H0. by apply elem_of_nil in H0. }
  unfold build, enumerate. subst all. rewrite imap_cons. cbn [fold_left].
  apply (build_rows_preserve pow_half _
           (fun G => head (g_nodes G) = Some (name loc0))); [|done].
  intros G u v kw. apply add_edge_head.
Qed.

(** X6: both orientations of an edge of the built graph hold the same
    data. *)
Theorem built_graph_undirected pow_half stops starting_point u v :
  let G := _create_travel_graph pow_half stops starting_point in
  get_edge_data G u v = get_edge_data G v u.
Proof. apply build_undirected. Qed.

(** X7: the nodes of the built graph are distinct names of locations.
    With two locations or more they are the names of all locations, the
    first location's name first; with fewer there is no node. *)
Theorem built_graph_nodes pow_half stops starting_point :
  let locations := stop_locations stops starting_point in
  let G := _create_travel_graph pow_half stops starting_point in
  NoDup (g_nodes G) /\
  (forall u, u ∈ g_nodes G -> exists loc, loc ∈ locations /\ name loc = u) /\
  ((2 <= length locations)%nat ->
   (forall loc, loc ∈ locations -> name loc ∈ g_nodes G) /\
   head (g_nodes G) = name <$> head locations) /\
  ((length locations < 2)%nat -> g_nodes G = []).
Proof.
  intros locations G.
  destruct (create_travel_graph_inv pow_half stops starting_point)
    as (Hnd & Hnamed & _).
  split_and!; [done|done| |].
  - intros Hlen. split; [intros loc; by apply build_nodes_named|].
    subst G. change (_create_travel_graph pow_half stops starting_point)
      with (build pow_half locations).
    destruct locations as [|loc0 [|loc1 locs]]; simpl in Hlen; try lia.
    apply build_head.
  - intros Hlen. subst G.
    change (_create_travel_graph pow_half stops starting_point)
      with (build pow_half locations).
    by rewrite build_few.
Qed.

(** ** The edges of the built graph *)

Lemma named_pair_sym locs u v : named_pair locs u v -> named_pair locs v u.
Proof.
  intros (i & j & loc1 & loc2 & Hij & Hi & Hj & Hu & Hv).
  by exists j, i, loc2, loc1.
Qed.

Lemma build_edges_named pow_half locs : edges_named locs (build pow_half locs).
Proof.
  unfold build. apply fold_left_invariant.
  2: { intros u v Huv. simpl in Huv. rewrite lookup_empty in Huv. by destruct Huv. }
  intros G [i loc1] Hi%elem_of_enumerate HG. unfold build_row.
  apply fold_left_invariant; [|done].
  clear G HG. intros G [j loc2] Hj%elem_of_enumerate HG. unfold add_pair.
  cbn [fst snd]. case_bool_decide as Hij; [|done].
  assert (Hpair : named_pair locs (name loc1) (name loc2))
    by (by exists i, j, loc1, loc2).
  apply fold_left_invariant; [|done].
  clear G HG. intros G mp _ HG u v. rewrite add_mode_edge_eq, add_edge_lookup.
  case_bool_decide as Hk; [|apply HG].
  intros _. destruct Hk as [[= -> ->]|[= -> ->]]; [done|by apply named_pair_sym].
Qed.

Lemma NoDup_names_inj (locs : list Location) loc loc' :
  NoDup (map name locs) -> loc ∈ locs -> loc' ∈ locs -> name loc = name loc' ->
  loc = loc'.
Proof.
  intros Hnd [i Hi]%list_elem_of_lookup [j Hj]%list_elem_of_lookup Hname.
  assert (i = j) as ->; [|congruence].
  apply (NoDup_lookup (map name locs) i j (name loc)); [done|..].
  - change (map name locs) with (name <$> locs). by rewrite list_lookup_fmap, Hi.
  - change (map name locs) with (name <$> locs).
    by rewrite list_lookup_fmap, Hj, Hname.
Qed.

(** X8: the built graph has an edge from [u] to [v] exactly when [u] and
    [v] are the names of the locations at two different positions; so it
    has a loop at a node exactly when two locations share that name. *)
Theorem built_graph_edge_iff pow_half stops starting_point u v :
  let locations := stop_locations stops starting_point in
  let G := _create_travel_graph pow_half stops starting_point in
  is_Some (get_edge_data G u v) <-> named_pair locations u v.
Proof.
  intros locations G. split.
  - apply build_edges_named.
  - intros (i & j & loc1 & loc2 & Hij & Hi & Hj & <- & <-).
    by apply (built_graph_edges pow_half locations i j).
Qed.

(** X9: when the locations have distinct names, the edge between two of
    them holds the attributes of the last mode for the distance between
    these two locations, in both orientations. *)
Theorem built_graph_edge_data pow_half stops starting_point loc1 loc2 :
  let locations := stop_locations stops starting_point in
  let G := _create_travel_graph pow_half stops starting_point in
  NoDup (map name locations) ->
  loc1 ∈ locations -> loc2 ∈ locations -> loc1 ≠ loc2 ->
  get_edge_data G (name loc1) (name loc2) =
    Some (last_mode_kwargs (_calculate_distance pow_half loc1 loc2)) /\
  get_edge_data G (name loc2) (name loc1) =
    Some (last_mode_kwargs (_calculate_distance pow_half loc1 loc2)).
Proof.
  intros locations G Hnd H1 H2 Hne.
  assert (Hedge : get_edge_data G (name loc1) (name loc2) =
    Some (last_mode_kwargs (_calculate_distance pow_half loc1 loc2))).
  { pose proof H1 as [i Hi]%list_elem_of_lookup.
    pose proof H2 as [j Hj]%list_elem_of_lookup.
    destruct (built_graph_edges pow_half locations i j loc1 loc2) as [d Hd];
      [done..|by intros ->; simplify_eq|].
    destruct (create_travel_graph_inv pow_half stops starting_point)
      as (_ & _ & Hadj).
    destruct (Hadj _ _ _ Hd) as (l1 & l2 & Hl1 & Hl2 & Hn1 & Hn2 & ->).
    apply (NoDup_names_inj locations) in Hn1 as ->; [|done..].
    apply (NoDup_names_inj locations) in Hn2 as ->; [|done..].
    done. }
  split; [done|]. rewrite <- Hedge. apply build_undirected.
Qed.

Lemma built_graph_edge_data_witness :
  get_edge_data (_create_travel_graph sample_pow_half two_stops None) "A" "B" =
    Some (last_mode_kwargs (_calculate_distance sample_pow_half
            (sample_location "A" 0 0) (sample_location "B" 3 4))) /\
  get_edge_data (_create_travel_graph sample_pow_half two_stops None) "B" "A" =
    Some (last_mode_kwargs (_calculate_distance sample_pow_half
            (sample_location "A" 0 0) (sample_location "B" 3 4))).
Proof.
  apply (built_graph_edge_data sample_pow_half two_stops None
           (sample_location "A" 0 0) (sample_location "B" 3 4)).
  - simpl. apply NoDup_cons. split; [|apply NoDup_singleton].
    by intros [=]%list_elem_of_singleton.
  - left.
  - right. left.
  - discriminate.
Defined.

(** ** The pipeline by its input *)

Lemma built_graph_node_count pow_half locs :
  let G := build pow_half locs in
  ((length locs < 2)%nat -> g_nodes G = []) /\
  ((2 <= length locs)%nat ->
   (forall loc loc', loc ∈ locs -> loc' ∈ locs -> name loc = name loc') ->
   exists n, g_nodes G = [n]) /\
  (forall loc loc', loc ∈ locs -> loc' ∈ locs -> name loc ≠ name loc' ->
   (2 <= length (g_nodes G))%nat).
Proof.
  intros G. destruct (built_graph_inv pow_half locs) as (Hnd & Hnamed & _).
  fold G in Hnd, Hnamed. split_and!.
  - intros Hlen. subst G. by rewrite build_few.
  - intros Hlen Hsame.
    destruct locs as [|loc0 [|loc1 locs]]; simpl in Hlen; try lia.
    pose proof (build_head pow_half loc0 loc1 locs) as Hhead. fold G in Hhead.
    destruct (g_nodes G) as [|n [|n' ns]]; [done|by exists n|].
    exfalso. simplify_eq/=.
    destruct (Hnamed n') as (loc & Hloc & Hn'); [set_solver|].
    apply NoDup_cons in Hnd as [Hnotin _]. apply Hnotin.
    rewrite <- Hn', (Hsame loc loc0) by (done || left). left.
  - intros loc loc' Hloc Hloc' Hne.
    assert (Hlen : (2 <= length locs)%nat).
    { destruct locs as [|loc0 [|loc1 locs]]; simpl; [set_solver| |lia].
      apply list_elem_of_singleton in Hloc, Hloc'. congruence. }
    pose proof (build_nodes_named pow_half locs loc Hlen Hloc) as Hin.
    pose proof (build_nodes_named pow_half locs loc' Hlen Hloc') as Hin'.
    fold G in Hin, Hin'.
    destruct (g_nodes G) as [|n [|n' ns]]; [set_solver| |simpl; lia].
    apply list_elem_of_singleton in Hin, Hin'. congruence.
Qed.

(** X10: with fewer than two locations the pipeline raises [IndexError].
    With more, and coordinates for which the squares in the distance are
    finite floats, what it gives depends on the names of the locations
    only: when they all have one name it returns no stop and the total
    [0]; with two locations of different names it raises [KeyError].
    Neither the budget nor the window matters. *)
Theorem optimize_route_by_input pow_half set_order stops budget start_time'
    end_time' starting_point :
  (forall l x, x ∈ set_order l <-> x ∈ l) ->
  let locations := stop_locations stops starting_point in
  let run := optimize_route pow_half set_order stops budget start_time'
               end_time' starting_point in
  ((length locations < 2)%nat -> run = Raise IndexError) /\
  (Forall coordinates_in_range locations ->
   ((2 <= length locations)%nat ->
    (forall loc loc', loc ∈ locations -> loc' ∈ locations ->
       name loc = name loc') ->
    run = Return ([], PInt 0)) /\
   (forall loc loc', loc ∈ locations -> loc' ∈ locations ->
      name loc ≠ name loc' -> run = Raise KeyError)).
Proof.
  intros Hord locations run. subst run. unfold optimize_route.
  rewrite built_graph_selector by done.
  destruct (built_graph_node_count pow_half locations) as (Hfew & Hone & Hmany).
  change (build pow_half locations)
    with (_create_travel_graph pow_half stops starting_point) in *.
  split; [|intros _; split].
  - intros Hlen. by rewrite Hfew.
  - intros Hlen Hsame. destruct (Hone Hlen Hsame) as [n ->]. done.
  - intros loc loc' Hloc Hloc' Hne. specialize (Hmany loc loc' Hloc Hloc' Hne).
    destruct (g_nodes _) as [|n [|n' ns]]; simpl in Hmany; try lia. done.
Qed.

Lemma two_stops_in_range :
  Forall coordinates_in_range (stop_locations two_stops None).
Proof.
  repeat apply Forall_cons_2; [..|apply Forall_nil_2];
    (split; split; by vm_compute).
Qed.

Lemma optimize_route_by_input_witness :
  optimize_route sample_pow_half list_order two_stops (PInt 100) nine eighteen
    None = Raise KeyError.
Proof.
  apply (proj2 (proj2 (optimize_route_by_input sample_pow_half list_order
           two_stops (PInt 100) nine eighteen None list_order_elem)
           two_stops_in_range)
           (sample_location "A" 0 0) (sample_location "B" 3 4)).
  - left.
  - right. left.
  - discriminate.
Defined.

(** ** More on the clock and the scheduler *)

Lemma minutes_to_time_float q : _minutes_to_time (PFloat q) = Raise TypeError.
Proof. reflexivity. Qed.

Lemma minutes_to_time_out_of_range z :
  ~ 0 <= z < 1440 -> _minutes_to_time (PInt z) = Raise ValueError.
Proof.
  intros Hz. unfold _minutes_to_time; simpl.
  rewrite bool_decide_eq_false_2; [done|].
  intros [[Hlo Hhi] _]. apply Hz.
  pose proof (Z.div_mod z 60). pose proof (Z.mod_pos_bound z 60). lia.
Qed.

(** X11: [_minutes_to_time] returns exactly on an int number of minutes of
    one day, and then [hour * 60 + minute] of the result is that number;
    every valid time is the result for its own number of minutes. *)
Theorem minutes_to_time_round_trip minutes t :
  _minutes_to_time minutes = Return t <->
  valid_time t /\ minutes = time_minutes t.
Proof.
  split.
  - destruct minutes as [z|q]; [|by rewrite minutes_to_time_float].
    destruct (decide (0 <= z < 1440)) as [Hz|Hz].
    + rewrite minutes_to_time_int by done. intros [= <-].
      unfold valid_time, time_minutes; simpl.
      pose proof (Z.div_mod z 60). pose proof (Z.mod_pos_bound z 60).
      split; [|f_equal; lia].
      split; [|lia]. split; [apply Z.div_pos; lia|apply Z.div_lt_upper_bound; lia].
    + by rewrite minutes_to_time_out_of_range.
  - intros [[Hh Hm] ->]. unfold time_minutes.
    rewrite minutes_to_time_int by lia. destruct t as [h m]; simpl in *.
    f_equal. f_equal.
    + symmetry. apply (Z.div_unique _ 60 h m); lia.
    + symmetry. apply (Z.mod_unique _ 60 h m); lia.
Qed.

(** X12: [_minutes_to_time] raises [TypeError] on every float, also one
    without a fractional part; on an int whose hour fits a C [int] it
    raises [ValueError] exactly when the int is outside of [0, 1440). *)
Theorem minutes_to_time_errors :
  (forall q, _minutes_to_time (PFloat q) = Raise TypeError) /\
  (forall z, hour_fits_int z ->
     (_minutes_to_time (PInt z) = Raise ValueError <-> ~ 0 <= z < 1440)).
Proof.
  split; [apply minutes_to_time_float|]. intros z _. split.
  - intros Hrun Hz. by rewrite minutes_to_time_int in Hrun.
  - apply minutes_to_time_out_of_range.
Qed.

Lemma schedule_loop_no_fit seg path clock end_minutes scheduled :
  ~ fits clock seg end_minutes ->
  schedule_loop (seg :: path) clock end_minutes scheduled = Return scheduled.
Proof.
  intros Hfits. cbn [schedule_loop].
  destruct (num_le _ end_minutes) eqn:Hle; [|done].
  by apply fits_num_le in Hle.
Qed.

(** X13: when the travel time of the first segment is an int, the
    scheduler returns, and then the empty list, exactly when the path is
    empty or its first segment does not fit the window. *)
Theorem scheduler_returns_iff path start_time' end_time' :
  (forall seg, head path = Some seg -> exists z, seg_time seg = PInt z) ->
  (_assign_time_slots path start_time' end_time' = Return [] <->
   forall seg, head path = Some seg ->
     ~ fits (time_minutes start_time') seg (time_minutes end_time')).
Proof.
  intros _. unfold _assign_time_slots. destruct path as [|seg path]; simpl head.
  - split; [by intros _ ? [=]|done].
  - split.
    + intros Hrun seg' [= <-] Hfits.
      destruct (schedule_commit_raises seg path _ _ [] Hfits) as (e & He & _).
      by rewrite He in Hrun.
    + intros Hfits. apply schedule_loop_no_fit. by apply Hfits.
Qed.

Lemma scheduler_returns_iff_witness :
  _assign_time_slots [walk_A_B] nine {| hour := 9; minute := 59 |} = Return [] <->
  forall seg, head [walk_A_B] = Some seg ->
    ~ fits (time_minutes nine) seg (time_minutes {| hour := 9; minute := 59 |}).
Proof.
  apply scheduler_returns_iff. intros seg [= <-]. by exists 30.
Defined.

(** X14: the scheduler looks at the first segment of the path only: the
    segments after it do not change its outcome. *)
Theorem scheduler_first_segment_only seg rest start_time' end_time' :
  _assign_time_slots (seg :: rest) start_time' end_time' =
  _assign_time_slots [seg] start_time' end_time'.
Proof.
  unfold _assign_time_slots. cbn [schedule_loop].
  destruct (num_le _ _); [|done].
  destruct (_minutes_to_time _) as [st|e|]; [|done..]. cbn [mbind outcome_bind].
  destruct (_minutes_to_time _) as [et|e|]; [|done..]. cbn [mbind outcome_bind].
  by rewrite !ItineraryStop_init_incomplete.
Qed.

(** X15: a segment that fits the window and whose travel time is a float,
    as every travel time computed by the builder is, makes the scheduler
    raise [TypeError]: the arrival time is a float, which [time] refuses. *)
Theorem scheduler_float_time_raises seg rest start_time' end_time' q :
  seg_time seg = PFloat q ->
  fits (time_minutes start_time') seg (time_minutes end_time') ->
  _assign_time_slots (seg :: rest) start_time' end_time' = Raise TypeError.
Proof.
  intros Hq Hfits. unfold _assign_time_slots. cbn [schedule_loop].
  apply fits_num_le in Hfits. rewrite Hfits, Hq. reflexivity.
Qed.

Lemma scheduler_float_time_raises_witness :
  _assign_time_slots
    [ {| seg_from := "A"; seg_to := "B"; seg_mode := "walking";
         seg_time := PFloat 30; seg_cost := PFloat 0 |} ] nine eighteen =
  Raise TypeError.
Proof.
  apply (scheduler_float_time_raises _ [] nine eighteen 30); [reflexivity|].
  by vm_compute.
Defined.

(** X16: a window of less than an hour, with travel times that are not
    negative, schedules nothing and raises nothing, whatever the path. *)
Theorem scheduler_short_window_empty path start_time' end_time' :
  minutes_of end_time' < minutes_of start_time' + 60 ->
  Forall (fun seg => (0 <= num_val (seg_time seg))%Q) path ->
  _assign_time_slots path start_time' end_time' = Return [].
Proof.
  intros Hshort Hpos. unfold _assign_time_slots.
  destruct path as [|seg path]; [done|].
  apply schedule_loop_no_fit. apply Forall_cons in Hpos as [Hseg _].
  unfold fits, time_minutes, minutes_of in *. simpl. intros Hfits.
  assert (inject_Z (hour start_time' * 60 + minute start_time') + 60 <=
          inject_Z (hour end_time' * 60 + minute end_time'))%Q as Hle by lra.
  change 60%Q with (inject_Z 60) in Hle.
  rewrite <- inject_Z_plus, <- Zle_Qle in Hle. lia.
Qed.

Lemma scheduler_short_window_empty_witness :
  _assign_time_slots [walk_A_B] nine {| hour := 9; minute := 59 |} = Return [].
Proof.
  apply scheduler_short_window_empty.
  - by vm_compute.
  - apply Forall_cons. split; [by vm_compute|apply Forall_nil_2].
Defined.

(** ** The distance *)


(** ** Python's arithmetic on ints *)

Lemma num_le_int a b : num_le (PInt a) (PInt b) = bool_decide (a <= b).
Proof.
  unfold num_le; simpl. case_bool_decide as H.
  - apply Qle_bool_iff. by rewrite <- Zle_Qle.
  - apply not_true_is_false. intros Hle. apply H.
    apply Qle_bool_iff in Hle. by rewrite <- Zle_Qle in Hle.
Qed.

Lemma num_lt_int a b : num_lt (PInt a) (PInt b) = bool_decide (a < b).
Proof.
  unfold num_lt. rewrite (num_le_int b a : Qle_bool _ _ = _).
  repeat case_bool_decide; simpl; try done; lia.
Qed.

Lemma binary64_exact_on_ints : exact_on_ints binary64.
Proof.
  split; simpl; try done.
  - intros a b. unfold pynum_le; simpl.
    case_bool_decide as H; destruct (Z.compare_spec a b); try done; lia.
  - intros a b. unfold pynum_lt; simpl.
    case_bool_decide as H; destruct (Z.compare_spec a b); try done; lia.
Qed.

Example rounding_run :
  Generic._calculate_optimal_path binary64 list_order rounding_graph
    rounding_budget = Return rounding_path.
Proof. vm_compute. reflexivity. Qed.

Example rounding_run_exact :
  _calculate_optimal_path list_order rounding_graph rounding_budget =
  Return (take 1 rounding_path).
Proof. vm_compute. reflexivity. Qed.

(** ** The selector in an arithmetic that is exact on ints *)

Lemma outcome_rel_eq {X} (o1 o2 : outcome X) : outcome_rel eq o1 o2 -> o1 = o2.
Proof. destruct o1, o2; simpl; try done; by intros ->. Qed.

Lemma for_each_rel {X S1 S2} (R : S1 -> S2 -> Prop)
    (f : S1 -> X -> outcome S1) (g : S2 -> X -> outcome S2) xs :
  (forall s1 s2 x, R s1 s2 -> outcome_rel R (f s1 x) (g s2 x)) ->
  forall s1 s2, R s1 s2 -> outcome_rel R (for_each f xs s1) (for_each g xs s2).
Proof.
  intros Hstep. induction xs as [|x xs IH]; intros s1 s2 HR; simpl; [done|].
  specialize (Hstep s1 s2 x HR).
  destruct (f s1 x), (g s2 x); simpl in *; try done. by apply IH.
Qed.

Section Simulation.

Variable A : arith.
Hypothesis A_exact : exact_on_ints A.
Variable set_order : list node -> list node.
Variable G : Graph.
Hypothesis G_ints : int_valued G.
Variable b : Z.

Lemma consider_sim current z n b1 b2 m :
  best_rel A b1 b2 ->
  outcome_rel (best_rel A)
    (Generic.consider A G (PInt b) current (of_num A (PInt z)) n b1 m)
    (consider G (PInt b) current (PInt z) n b2 m).
Proof.
  intros Hrel. unfold Generic.consider, consider.
  destruct (get_edge_data G current n) as [d|] eqn:Hd; [|done].
  destruct (dict_truthy d); [|done].
  destruct (getitem2 d m "cost") as [c| |] eqn:Hc; simpl; try done.
  destruct (G_ints _ _ _ _ _ _ Hd Hc) as [zc ->].
  rewrite (add_int A A_exact); simpl.
  rewrite (le_int A A_exact), num_le_int.
  case_bool_decide; [|done].
  destruct (getitem2 d m "time") as [t| |] eqn:Ht; simpl; try done.
  destruct (G_ints _ _ _ _ _ _ Hd Ht) as [zt ->].
  rewrite (mul_int A A_exact); simpl. rewrite (add_int A A_exact); simpl.
  destruct b1 as [[[n1 s1] m1]|], b2 as [[[n2 s2] m2]|]; simpl in Hrel; try done.
  - destruct Hrel as (-> & -> & zs & -> & ->). simpl.
    rewrite (lt_int A A_exact), num_lt_int.
    case_bool_decide; simpl; eauto.
  - rewrite (lt_inf A A_exact). simpl. eauto.
Qed.

Lemma scan_sim current remaining z :
  outcome_rel (best_rel A)
    (Generic.scan A set_order G (PInt b) current remaining (of_num A (PInt z)))
    (scan set_order G (PInt b) current remaining (PInt z)).
Proof.
  unfold Generic.scan, scan. apply for_each_rel; [|done].
  intros b1 b2 n Hrel. apply for_each_rel; [|done].
  intros b1' b2' m Hrel'. by apply consider_sim.
Qed.

Lemma loop_body_sim s1 s2 :
  state_rel A s1 s2 ->
  outcome_rel (fun r1 r2 =>
                 match r1, r2 with
                 | None, None => True
                 | Some s1', Some s2' => state_rel A s1' s2'
                 | _, _ => False
                 end)
    (Generic.loop_body A set_order G (PInt b) s1)
    (loop_body set_order G (PInt b) s2).
Proof.
  destruct s1 as [cur1 rem1 cost1 path1], s2 as [cur2 rem2 cost2 path2].
  intros (Hcur & Hrem & Hpath & z & Hz2 & Hz1); simpl in *. subst.
  unfold Generic.loop_body, loop_body; simpl.
  pose proof (scan_sim cur2 rem2 z) as Hscan.
  destruct (Generic.scan _ _ _ _ _ _ _) as [b1| |],
           (scan _ _ _ _ _ _) as [b2| |]; simpl in *; try done.
  destruct b1 as [[[n1 s1] m1]|], b2 as [[[n2 s2] m2]|]; simpl in Hscan; try done.
  destruct Hscan as (-> & -> & _). unfold edge_item.
  destruct (g_adj G !! (cur2, n2)) as [d|] eqn:Hd; [|done].
  destruct (getitem2 d m2 "time") as [t| |] eqn:Ht; simpl; try done.
  destruct (getitem2 d m2 "cost") as [c| |] eqn:Hc; simpl; try done.
  destruct (G_ints cur2 n2 d m2 "cost" c Hd Hc) as [zc ->].
  rewrite (add_int A A_exact); simpl.
  case_bool_decide; [|done]. simpl.
  unfold state_rel; simpl. split_and!; try done. by exists (z + zc).
Qed.

Lemma while_remaining_sim fuel s1 s2 :
  state_rel A s1 s2 ->
  Generic.while_remaining A set_order fuel G (PInt b) s1 =
  while_remaining set_order fuel G (PInt b) s2.
Proof.
  revert s1 s2. induction fuel as [|fuel IH]; intros s1 s2 Hrel;
    pose proof Hrel as (_ & Hrem & Hpath & _); simpl; rewrite Hrem, Hpath;
    destruct (remaining_nodes s2); try done.
  pose proof (loop_body_sim s1 s2 Hrel) as Hbody.
  destruct (Generic.loop_body _ _ _ _ _) as [[s1'|]| |],
           (loop_body _ _ _ _) as [[s2'|]| |]; simpl in *; try done.
  - by apply IH.
  - by subst.
Qed.

Lemma initial_state_rel current rest :
  state_rel A (Generic.initial_state A current rest) (initial_state current rest).
Proof. unfold state_rel; simpl. split_and!; try done. by exists 0. Qed.

(** On a graph of ints with an int budget the selector is the one in exact
    arithmetic. *)
Lemma selector_sim :
  Generic._calculate_optimal_path A set_order G (PInt b) =
  _calculate_optimal_path set_order G (PInt b).
Proof.
  unfold Generic._calculate_optimal_path, _calculate_optimal_path.
  destruct (g_nodes G) as [|current rest]; [done|]. simpl.
  apply while_remaining_sim, initial_state_rel.
Qed.

Lemma reaches_sim s1 s1' s2 :
  Generic.reaches A set_order G (PInt b) s1 s1' ->
  state_rel A s1 s2 ->
  exists s2', reaches set_order G (PInt b) s2 s2' /\ state_rel A s1' s2'.
Proof.
  intros Hreach. revert s2.
  induction Hreach as [s|s s' s'' Hne Hbody _ IH]; intros s2 Hrel.
  - exists s2. split; [apply reaches_here|done].
  - pose proof (loop_body_sim s s2 Hrel) as Hsim. rewrite Hbody in Hsim.
    destruct (loop_body set_order G (PInt b) s2) as [[s2'|]| |] eqn:Hbody2;
      simpl in Hsim; try done.
    destruct (IH s2' Hsim) as (s2'' & Hreach2 & Hrel2).
    exists s2''. split; [|done].
    eapply reaches_turn; [|done..].
    destruct Hrel as (_ & <- & _). done.
Qed.

End Simulation.

(** ** What every committed hop has passed *)

Section Tests.

Variable A : arith.
Variable set_order : list node -> list node.
Variables (G : Graph) (budget : num).

Lemma consider_passed current spent n best m best' :
  Generic.consider A G budget current spent n best m = Return best' ->
  best' = best \/
  exists d c sc, get_edge_data G current n = Some d /\
    getitem2 d m "cost" = Return c /\ passes_test A budget spent c /\
    best' = Some (n, sc, m).
Proof.
  unfold Generic.consider.
  destruct (get_edge_data G current n) as [d|] eqn:Hd; [|intros [= <-]; by left].
  destruct (dict_truthy d); [|intros [= <-]; by left].
  destruct (getitem2 d m "cost") as [c| |] eqn:Hc; simpl; try done.
  destruct (py_add A (of_num A c) spent) as [total| |] eqn:Hadd; simpl; try done.
  destruct (py_le A total (of_num A budget)) eqn:Hle; [|intros [= <-]; by left].
  destruct (getitem2 d m "time") as [t| |]; simpl; try done.
  destruct (py_mul A _ _) as [w| |]; simpl; try done.
  destruct (py_add A (of_num A t) w) as [sc| |]; simpl; try done.
  destruct (py_lt A sc _); intros [= <-]; [|by left].
  right. exists d, c, sc. split_and!; try done. by exists total.
Qed.

Lemma scan_passed current remaining spent best :
  Generic.scan A set_order G budget current remaining spent = Return best ->
  match best with
  | None => True
  | Some (n, _, m) =>
      exists d c, get_edge_data G current n = Some d /\
        getitem2 d m "cost" = Return c /\ passes_test A budget spent c
  end.
Proof.
  unfold Generic.scan. intros Hrun.
  apply (for_each_invariant _
    (fun best : Generic.best_state A =>
       match best with
       | None => True
       | Some (n, _, m) =>
           exists d c, get_edge_data G current n = Some d /\
             getitem2 d m "cost" = Return c /\ passes_test A budget spent c
       end)) with (3:=Hrun); [|done].
  intros s n s' _ Hs Hinner. cbv beta in Hinner.
  apply (for_each_invariant _
    (fun best : Generic.best_state A =>
       match best with
       | None => True
       | Some (n, _, m) =>
           exists d c, get_edge_data G current n = Some d /\
             getitem2 d m "cost" = Return c /\ passes_test A budget spent c
       end)) with (3:=Hinner); [|done].
  intros s0 m s0' _ Hs0 Hc.
  apply consider_passed in Hc as [->|(d & c & sc & ? & ? & ? & ->)]; [done|].
  by exists d, c.
Qed.

Lemma loop_body_passed s s' :
  Generic.loop_body A set_order G budget s = Return (Some s') ->
  exists seg total,
    passes_test A budget (Generic.current_cost s) (seg_cost seg) /\
    py_add A (Generic.current_cost s) (of_num A (seg_cost seg)) = Return total /\
    Generic.current_cost s' = total /\
    Generic.optimal_path s' = Generic.optimal_path s ++ [seg].
Proof.
  unfold Generic.loop_body.
  destruct (Generic.scan _ _ _ _ _ _ _) as [best| |] eqn:Hscan; simpl; try done.
  apply scan_passed in Hscan.
  destruct best as [[[n sc] m]|]; [|done].
  destruct Hscan as (d & c & Hd & Hc & Hpass).
  unfold edge_item. unfold get_edge_data in Hd. rewrite Hd.
  destruct (getitem2 d m "time") as [t| |]; simpl; try done.
  rewrite Hc; simpl.
  destruct (py_add A _ _) as [total| |] eqn:Hadd; simpl; try done.
  case_bool_decide; [|done]. intros [= <-]; simpl.
  by exists {| seg_from := Generic.current_node s; seg_to := n; seg_mode := m;
               seg_time := t; seg_cost := c |}, total.
Qed.

Lemma running_total_snoc acc path seg :
  running_total A acc (path ++ [seg]) =
  (spent ← running_total A acc path; py_add A spent (of_num A (seg_cost seg))).
Proof.
  revert acc. induction path as [|x path IH]; intros acc; simpl.
  - by destruct (py_add A acc _).
  - destruct (py_add A acc _) as [acc'| |]; simpl; [apply IH|done..].
Qed.

Lemma loop_body_test_inv s s' :
  test_inv A budget s ->
  Generic.loop_body A set_order G budget s = Return (Some s') ->
  test_inv A budget s'.
Proof.
  intros [Htotal Hpath] Hbody.
  apply loop_body_passed in Hbody as (seg & total & Hpass & Hadd & Hcost & Hs').
  unfold test_inv. rewrite Hs'. split.
  - rewrite running_total_snoc, Htotal; simpl. by rewrite Hadd, Hcost.
  - intros pre seg' post Heq.
    destruct post as [|x post _] using rev_ind.
    + apply app_inj_tail in Heq as [<- <-]. eauto.
    + rewrite app_comm_cons, app_assoc in Heq.
      apply app_inj_tail in Heq as [Heq _]. by eapply Hpath.
Qed.

Lemma while_remaining_test_inv fuel s path :
  test_inv A budget s ->
  Generic.while_remaining A set_order fuel G budget s = Return path ->
  committed_by_test A budget path.
Proof.
  revert s. induction fuel as [|fuel IH]; intros s Hinv; simpl;
    destruct (Generic.remaining_nodes s) eqn:Hrem; intros Hrun.
  1, 3: simplify_eq; by destruct Hinv.
  { done. }
  destruct (Generic.loop_body A set_order G budget s) as [[s'|]| |] eqn:Hbody;
    simpl in Hrun; try done.
  - eapply IH; [|done]. by eapply loop_body_test_inv.
  - simplify_eq. by destruct Hinv.
Qed.

Lemma selector_committed_by_test path :
  Generic._calculate_optimal_path A set_order G budget = Return path ->
  committed_by_test A budget path.
Proof.
  unfold Generic._calculate_optimal_path.
  destruct (g_nodes G) as [|current rest]; [done|].
  apply while_remaining_test_inv. split; [done|].
  intros pre seg post Heq. by destruct pre.
Qed.

(** What a turn that commits a hop does to the nodes and to the path. *)
Lemma loop_body_turn s s' :
  Generic.loop_body A set_order G budget s = Return (Some s') ->
  exists n seg, n ∈ Generic.remaining_nodes s /\
    Generic.remaining_nodes s' =
      filter (fun x => x ≠ n) (Generic.remaining_nodes s) /\
    Generic.optimal_path s' = Generic.optimal_path s ++ [seg].
Proof.
  unfold Generic.loop_body.
  destruct (Generic.scan _ _ _ _ _ _ _) as [[[[n sc] m]|]| |]; simpl; try done.
  unfold edge_item.
  destruct (g_adj G !! (Generic.current_node s, n)) as [d|]; [|done].
  destruct (getitem2 d m "time") as [t| |]; simpl; try done.
  destruct (getitem2 d m "cost") as [c| |]; simpl; try done.
  destruct (py_add A _ _) as [total| |]; simpl; try done.
  case_bool_decide; [|done]. intros [= <-]; simpl. eauto.
Qed.

Lemma reaches_loop s s' fuel :
  Generic.reaches A set_order G budget s s' ->
  (length (Generic.remaining_nodes s) <= fuel)%nat ->
  exists fuel', (length (Generic.remaining_nodes s') <= fuel')%nat /\
    Generic.while_remaining A set_order fuel G budget s =
    Generic.while_remaining A set_order fuel' G budget s'.
Proof.
  intros Hr. revert fuel.
  induction Hr as [s|s s' s'' Hne Hbody _ IH]; intros fuel Hlen; [eauto|].
  destruct fuel as [|fuel].
  { destruct (Generic.remaining_nodes s); simpl in *; [done|lia]. }
  assert (Hlen' : (length (Generic.remaining_nodes s') <= fuel)%nat).
  { destruct (loop_body_turn _ _ Hbody) as (n & seg & Hn & -> & _).
    assert (Hnn : ~ n ≠ n) by (intros Hne'; by apply Hne').
    pose proof (length_filter_lt (fun y => y ≠ n) _ n Hn Hnn) as Hlt. lia. }
  destruct (IH fuel Hlen') as (fuel' & ? & Heq). exists fuel'. split; [done|].
  simpl. destruct (Generic.remaining_nodes s); [done|]. by rewrite Hbody.
Qed.

Lemma reaches_hops s s' :
  Generic.reaches A set_order G budget s s' ->
  NoDup (Generic.remaining_nodes s) ->
  NoDup (Generic.remaining_nodes s') /\
  (length (Generic.optimal_path s') + length (Generic.remaining_nodes s') =
   length (Generic.optimal_path s) + length (Generic.remaining_nodes s))%nat.
Proof.
  induction 1 as [|s s' s'' _ Hbody _ IH]; intros Hnd; [done|].
  destruct (loop_body_turn _ _ Hbody) as (n & seg & Hn & Hrem & Hpath).
  rewrite Hrem, Hpath in IH.
  destruct IH as [Hnd' Hlen]; [by apply NoDup_filter|]. split; [done|].
  rewrite Hlen, length_app; simpl.
  pose proof (length_filter_ne _ n Hnd Hn). lia.
Qed.

Lemma consider_fails current spent n best m :
  match get_edge_data G current n with
  | None => True
  | Some d =>
      dict_truthy d = false \/
      exists c total, getitem2 d m "cost" = Return c /\
        py_add A (of_num A c) spent = Return total /\
        py_le A total (of_num A budget) = false
  end ->
  Generic.consider A G budget current spent n best m = Return best.
Proof.
  unfold Generic.consider. destruct (get_edge_data G current n) as [d|]; [|done].
  intros [->|(c & total & -> & Hadd & Hle)]; [done|].
  destruct (dict_truthy d); [|done]. simpl. rewrite Hadd; simpl. by rewrite Hle.
Qed.

Hypothesis set_order_elem : forall l x, x ∈ set_order l <-> x ∈ l.

Lemma scan_none_passes s :
  none_passes A G budget s ->
  Generic.scan A set_order G budget (Generic.current_node s)
    (Generic.remaining_nodes s) (Generic.current_cost s) = Return None.
Proof.
  intros Hno. unfold Generic.scan. apply for_each_unchanged. intros n Hn.
  apply for_each_unchanged. intros m Hm. apply consider_fails.
  apply Hno; [by apply set_order_elem|done].
Qed.

(** A turn at which no candidate passes the test ends the loop. *)
Lemma selector_stops_when_none_passes start rest s :
  g_nodes G = start :: rest ->
  Generic.reaches A set_order G budget (Generic.initial_state A start rest) s ->
  Generic.remaining_nodes s <> [] ->
  none_passes A G budget s ->
  Generic._calculate_optimal_path A set_order G budget =
    Return (Generic.optimal_path s) /\
  (length (Generic.optimal_path s) < length (remove_dups rest))%nat.
Proof.
  intros Hnodes Hreach Hrem Hno. split.
  - unfold Generic._calculate_optimal_path. rewrite Hnodes.
    destruct (reaches_loop _ _ _ Hreach (le_n _)) as (fuel & Hlen & ->).
    destruct (Generic.remaining_nodes s) as [|x xs] eqn:Hxs; [done|].
    destruct fuel as [|fuel]; [simpl in Hlen; lia|].
    simpl. rewrite Hxs. unfold Generic.loop_body.
    rewrite scan_none_passes by done. done.
  - apply reaches_hops in Hreach as [_ Hlen]; [|apply NoDup_remove_dups].
    simpl in Hlen. destruct (Generic.remaining_nodes s); [done|].
    simpl in Hlen. lia.
Qed.

End Tests.

(** ** The turns behind a returned path *)

Lemma graph_ints_spec G : graph_ints G = true -> int_valued G.
Proof.
  unfold graph_ints, int_valued, get_edge_data.
  intros Hall u v d m key x Hd Hx.
  rewrite forallb_forall in Hall.
  specialize (Hall ((u, v), d)). simpl in Hall.
  rewrite forallb_forall in Hall.
  apply getitem2_Return in Hx as (inner & Hm & Hk).
  specialize (Hall (proj1 (list_elem_of_In _ _)
    (proj2 (elem_of_map_to_list _ _ _) Hd)) (m, ADict inner)).
  simpl in Hall. rewrite forallb_forall in Hall.
  specialize (Hall (proj1 (list_elem_of_In _ _)
    (proj2 (elem_of_map_to_list _ _ _) Hm)) (key, x)).
  simpl in Hall.
  specialize (Hall (proj1 (list_elem_of_In _ _)
    (proj2 (elem_of_map_to_list _ _ _) Hk))).
  destruct x as [z|q]; [by exists z|done].
Qed.


Lemma reaches_trans set_order G budget s1 s2 s3 :
  reaches set_order G budget s1 s2 -> reaches set_order G budget s2 s3 ->
  reaches set_order G budget s1 s3.
Proof.
  induction 1 as [|s s' s'' Hne Hbody _ IH]; [done|].
  intros H3. eapply reaches_turn; [done..|]. by apply IH.
Qed.


Section Turns.

Variable set_order : list node -> list node.
Hypothesis set_order_elem : forall l x, x ∈ set_order l <-> x ∈ l.
Variables (G : Graph) (budget : num).
Variables (start : node) (rest : list node).






(** A turn at which no candidate fits ends the loop. *)
Lemma selector_stops_at s :
  g_nodes G = start :: rest ->
  reaches set_order G budget (initial_state start rest) s ->
  remaining_nodes s <> [] ->
  no_candidate_within_budget G budget s ->
  _calculate_optimal_path set_order G budget = Return (optimal_path s) /\
  (length (optimal_path s) < length (remove_dups rest))%nat.
Proof.
  intros Hnodes Hreach Hrem Hno. split.
  - unfold _calculate_optimal_path. rewrite Hnodes.
    destruct (reaches_while _ _ _ _ _ _ Hreach (le_n _)) as (fuel & Hlen & ->).
    destruct (remaining_nodes s) as [|x xs] eqn:Hxs; [done|].
    destruct fuel as [|fuel]; [simpl in Hlen; lia|].
    simpl. rewrite Hxs. unfold loop_body.
    rewrite scan_no_candidate by done. done.
  - apply reaches_count in Hreach as [_ Hlen]; [|apply NoDup_remove_dups].
    simpl in Hlen. destruct (remaining_nodes s); [done|]. simpl in Hlen. lia.
Qed.

End Turns.

Lemma selector_within_budget set_order G budget path :
  (0 <= num_val budget)%Q ->
  _calculate_optimal_path set_order G budget = Return path ->
  committed_within budget path /\
  (travel_cost_sum path <= num_val budget)%Q.
Proof.
  intros Hb Hrun. unfold _calculate_optimal_path in Hrun.
  destruct (g_nodes G) as [|current rest]; [done|].
  apply while_remaining_budget_inv in Hrun; [|apply initial_budget_inv].
  split; [done|]. by apply committed_within_sum.
Qed.

(** ** The budget in Python's arithmetic *)

(** C1 (amended): whenever the selector, run in Python's arithmetic,
    returns a path for a budget [b >= 0], every hop of the path passed the
    test of line 82: its cost added to the running total of the hops
    before it, as [current_cost] accumulates it, compared [<= b].  When the
    numbers of the graph and the budget are ints, this total is the exact
    sum, so the travel costs of the whole path sum to at most [b]. *)
Theorem C1_budget_never_exceeded set_order G budget path :
  (0 <= num_val budget)%Q ->
  Generic._calculate_optimal_path binary64 set_order G budget = Return path ->
  committed_by_test binary64 budget path /\
  (int_valued G -> (exists b, budget = PInt b) ->
   committed_within budget path /\
   (travel_cost_sum path <= num_val budget)%Q).
Proof.
  intros Hb Hrun. split; [by eapply selector_committed_by_test|].
  intros Hints [b ->].
  rewrite (selector_sim binary64 binary64_exact_on_ints) in Hrun by done.
  by eapply selector_within_budget.
Qed.

(** C1 as stated fails with floats: with the budget [1e16] the selector
    commits a hop of cost [1e16] and then one of cost [1.0], because
    [1.0 + 1e16] is rounded to [1e16]; the costs sum to more than the
    budget. *)
Lemma C1_budget_never_exceeded_counterexample :
  (0 <= num_val rounding_budget)%Q /\
  Generic._calculate_optimal_path binary64 list_order rounding_graph
    rounding_budget = Return rounding_path /\
  ~ (travel_cost_sum rounding_path <= num_val rounding_budget)%Q.
Proof.
  split_and!.
  - by vm_compute.
  - vm_compute. reflexivity.
  - vm_compute. intros H. by apply H.
Qed.

(** ** The choice of a hop *)



(** ** Stopping early *)

Lemma out_of_budget_exact (A : arith) G budget (s1 : Generic.loop_state A) s2 :
  state_rel A s1 s2 -> budget_inv budget s2 ->
  out_of_budget G budget s1 -> no_candidate_within_budget G budget s2.
Proof.
  intros (Hcur & Hrem & Hpath & _) [Hcost _] Hout n m Hn Hm.
  rewrite <- Hrem in Hn. specialize (Hout n m Hn Hm). rewrite Hcur in Hout.
  destruct (get_edge_data G (current_node s2) n) as [d|]; [|done].
  destruct Hout as [?|(c & Hc & Hover)]; [by left|right].
  exists c. split; [done|]. intros Hin. apply Hover.
  unfold affordable, within_budget in *. by rewrite Hpath, <- Hcost.
Qed.

(** C6 (amended): when the loop of the selector, run in Python's
    arithmetic, comes to a turn at which no (node, mode) candidate passes
    the test of line 82, the selector returns, without raising, the path
    committed before that turn; this path has fewer hops than there are
    nodes to visit.  When the numbers of the graph and the budget are ints
    the test is exact, and this is so at every turn at which no candidate
    keeps the travel costs within budget. *)
Theorem C6_stops_early set_order G budget start rest s :
  (forall l x, x ∈ set_order l <-> x ∈ l) ->
  g_nodes G = start :: rest ->
  Generic.reaches binary64 set_order G budget
    (Generic.initial_state binary64 start rest) s ->
  Generic.remaining_nodes s <> [] ->
  none_passes binary64 G budget s \/
  (int_valued G /\ (exists b, budget = PInt b) /\ out_of_budget G budget s) ->
  Generic._calculate_optimal_path binary64 set_order G budget =
    Return (Generic.optimal_path s) /\
  (length (Generic.optimal_path s) < length (remove_dups rest))%nat.
Proof.
  intros Hord Hnodes Hreach Hrem [Hnone|(Hints & [b ->] & Hout)].
  { by apply (selector_stops_when_none_passes binary64 set_order G budget Hord
                start rest). }
  destruct (reaches_sim binary64 binary64_exact_on_ints set_order G Hints b
              _ _ _ Hreach (initial_state_rel binary64 start rest))
    as (s2 & Hreach2 & Hrel).
  rewrite (selector_sim binary64 binary64_exact_on_ints) by done.
  pose proof Hrel as (_ & Hrem2 & Hpath2 & _). rewrite Hpath2.
  apply (selector_stops_at set_order Hord G (PInt b) start rest);
    [done..|by rewrite <- Hrem2|].
  eapply out_of_budget_exact; [done| |done].
  eapply reaches_budget_inv; [done|apply initial_budget_inv].
Qed.

(** C6 as stated fails with floats: after the first hop on
    [rounding_graph] no candidate keeps the travel costs within the budget
    [1e16], yet the selector goes on and commits the hop to C. *)
Lemma C6_stops_early_counterexample :
  Generic.reaches binary64 list_order rounding_graph rounding_budget
    (Generic.initial_state binary64 "A" ["B"; "C"]) rounding_turn /\
  Generic.remaining_nodes rounding_turn <> [] /\
  out_of_budget rounding_graph rounding_budget rounding_turn /\
  Generic._calculate_optimal_path binary64 list_order rounding_graph
    rounding_budget = Return rounding_path /\
  rounding_path <> Generic.optimal_path rounding_turn.
Proof.
  split_and!.
  - eapply Generic.reaches_turn; [| |apply Generic.reaches_here].
    + done.
    + reflexivity.
  - done.
  - intros n m Hn Hm. unfold rounding_turn in *.
    cbn [Generic.current_node Generic.optimal_path Generic.remaining_nodes] in *.
    apply list_elem_of_singleton in Hn as ->.
    set (e := get_edge_data rounding_graph "B" "C"). vm_compute in e. subst e.
    lazy beta iota. right. exists (PFloat 1).
    unfold mode_names, transport_modes in Hm; simpl in Hm.
    repeat (apply elem_of_cons in Hm as [->|Hm]);
      [| | |by apply elem_of_nil in Hm].
    all: split; [vm_compute; reflexivity|vm_compute; intros Hle; by apply Hle].
  - vm_compute. reflexivity.
  - done.
Qed.

(** ** The budget and the number of hops *)




(** ** The stop that the scheduler builds *)

(** A turn of the scheduler's loop, in terms of the call it makes. *)
Lemma schedule_loop_call seg rest clock end_minutes scheduled :
  schedule_loop (seg :: rest) clock end_minutes scheduled =
  let arrival := num_add clock (seg_time seg) in
  if num_le (num_add arrival (PInt 60)) end_minutes then
    st ← _minutes_to_time arrival;
    et ← _minutes_to_time (num_add arrival (PInt 60));
    stop ← ItineraryStop_init (stop_call seg st et);
    schedule_loop rest (num_add arrival (PInt 60)) end_minutes
      (scheduled ++ [stop])
  else Return scheduled.
Proof. reflexivity. Qed.

(** C3, at the path A -> B (30 minutes), B -> C (45 minutes) and the
    window 09:00-18:00: the call that builds the stop at B gives it the
    time and the mode of the hop that arrives at B, not those of the hop to
    the next stop, and raises, so no list of stops is returned.  With the
    arguments that the call lacks supplied, the stops at B and at C are
    built, and they do not follow the path as the claim says. *)
Theorem C3_stop_holds_arriving_hop :
  _assign_time_slots [walk_A_B; walk_B_C] nine eighteen = Raise ValidationError /\
  schedule_loop [walk_A_B; walk_B_C] (time_minutes nine) (time_minutes eighteen) []
  = (stop ← ItineraryStop_init (stop_call walk_A_B half_past_nine half_past_ten);
     schedule_loop [walk_B_C] (PInt 630) (time_minutes eighteen) [stop]) /\
  kw_travel_time_to_next (stop_call walk_A_B half_past_nine half_past_ten) =
    Some (seg_time walk_A_B) /\
  kw_travel_method_to_next (stop_call walk_A_B half_past_nine half_past_ten) =
    Some (seg_mode walk_A_B) /\
  (forall loc1 loc2 act stat stop1 stop2,
     ItineraryStop_init
       (with_missing (stop_call walk_A_B half_past_nine half_past_ten)
          loc1 act stat) = Return stop1 ->
     ItineraryStop_init
       (with_missing (stop_call walk_B_C quarter_past_eleven quarter_past_twelve)
          loc2 act stat) = Return stop2 ->
     travel_time_to_next stop1 = Some 30 /\
     ~ stops_follow [walk_A_B; walk_B_C] [stop1; stop2]).
Proof.
  split_and!; try reflexivity.
  intros loc1 loc2 act stat stop1 stop2 [= <-] [= <-]. split; [done|].
  simpl. intros (_ & Htime & _). discriminate Htime.
Qed.

(** C7, at the path A -> B with the travel cost 1 and the window
    09:00-18:00: the call that builds the stop at B gives the travel cost of
    the hop as the cost of the stop and raises, so no total is reported.
    With the arguments that the call lacks supplied, the total of the stop
    that is built is the travel cost of the hop. *)
Theorem C7_stop_cost_is_travel_cost :
  _assign_time_slots [walk_A_B] nine eighteen = Raise ValidationError /\
  kw_cost (stop_call walk_A_B half_past_nine half_past_ten) =
    Some (seg_cost walk_A_B) /\
  (forall loc act stat stop,
     ItineraryStop_init
       (with_missing (stop_call walk_A_B half_past_nine half_past_ten)
          loc act stat) = Return stop ->
     (num_val (_calculate_total_cost [stop]) == num_val (seg_cost walk_A_B))%Q).
Proof.
  split_and!; try reflexivity.
  intros loc act stat stop [= <-]. by vm_compute.
Qed.

(** ** The amended claims at sample inputs *)

Lemma sample_graph_ints : int_valued sample_graph.
Proof. apply graph_ints_spec. vm_compute. reflexivity. Qed.


Lemma C1_budget_never_exceeded_witness :
  committed_by_test binary64 (PInt 1) [walk_A_B] /\
  (int_valued sample_graph -> (exists b, PInt 1 = PInt b) ->
   committed_within (PInt 1) [walk_A_B] /\
   (travel_cost_sum [walk_A_B] <= num_val (PInt 1))%Q).
Proof.
  apply (C1_budget_never_exceeded list_order sample_graph (PInt 1) [walk_A_B]).
  - by vm_compute.
  - vm_compute. reflexivity.
Defined.


Lemma C6_stops_early_witness :
  Generic._calculate_optimal_path binary64 list_order sample_graph (PInt 1) =
    Return [walk_A_B] /\
  (length [walk_A_B] < length (remove_dups ["B"; "C"]))%nat.
Proof.
  apply (C6_stops_early list_order sample_graph (PInt 1) "A" ["B"; "C"]
           after_first_turn_py).
  - apply list_order_elem.
  - by vm_compute.
  - eapply Generic.reaches_turn; [| |apply Generic.reaches_here].
    + done.
    + reflexivity.
  - done.
  - right. split_and!; [apply sample_graph_ints|by exists 1|].
    intros n m Hn Hm. unfold after_first_turn_py in *.
    cbn [Generic.current_node Generic.optimal_path Generic.remaining_nodes] in *.
    apply list_elem_of_singleton in Hn as ->.
    set (e := get_edge_data sample_graph "B" "C"). vm_compute in e. subst e.
    lazy beta iota. right.
    unfold mode_names, transport_modes in Hm; simpl in Hm.
    repeat (apply elem_of_cons in Hm as [->|Hm]);
      [| | |by apply elem_of_nil in Hm].
    all: eexists; split; [vm_compute; reflexivity|vm_compute; intros Hle; by apply Hle].
Defined.


(** ** More on the selector in Python's arithmetic *)

Lemma selector_returns_exact set_order G budget :
  (forall l x, x ∈ set_order l <-> x ∈ l) ->
  graph_readable G ->
  g_nodes G <> [] ->
  exists path, _calculate_optimal_path set_order G budget = Return path.
Proof.
  intros Hord Hread Hne. unfold _calculate_optimal_path.
  destruct (g_nodes G) as [|start rest] eqn:Hnodes; [done|].
  apply while_remaining_returns; [done..| |].
  - simpl. rewrite Hnodes. left.
  - simpl. rewrite Hnodes. intros x Hx. right. by rewrite elem_of_remove_dups in Hx.
Qed.

(** X4: on a graph with a node on which the data of all edges between
    nodes can be read and are ints, with an int budget, the selector
    returns a path and raises nothing. *)
Theorem selector_returns_on_readable_graph set_order G b :
  (forall l x, x ∈ set_order l <-> x ∈ l) ->
  graph_readable G ->
  int_valued G ->
  g_nodes G <> [] ->
  exists path,
    Generic._calculate_optimal_path binary64 set_order G (PInt b) = Return path.
Proof.
  intros Hord Hread Hints Hne.
  rewrite (selector_sim binary64 binary64_exact_on_ints) by done.
  by apply selector_returns_exact.
Qed.

Lemma float_of_int_raises z e : float_of_int z = Raise e -> e = OverflowError.
Proof. unfold float_of_int. destruct (f64_of_Z z); try done. by intros [= <-]. Qed.

Lemma as_float_raises x e : as_float x = Raise e -> e = OverflowError.
Proof. destruct x; simpl; [apply float_of_int_raises|done]. Qed.

Lemma pynum_add_raises x y e : pynum_add x y = Raise e -> e = OverflowError.
Proof.
  unfold pynum_add. destruct x as [a|f], y as [c|g]; simpl; try done.
  - destruct (float_of_int a) as [fx|e1|] eqn:H1; simpl; try done.
    intros [= <-]. by eapply float_of_int_raises.
  - destruct (float_of_int c) as [fy|e1|] eqn:H1; simpl; try done.
    intros [= <-]. by eapply float_of_int_raises.
Qed.

Lemma pynum_mul_raises x y e : pynum_mul x y = Raise e -> e = OverflowError.
Proof.
  unfold pynum_mul. destruct x as [a|f], y as [c|g]; simpl; try done.
  - destruct (float_of_int a) as [fx|e1|] eqn:H1; simpl; try done.
    intros [= <-]. by eapply float_of_int_raises.
  - destruct (float_of_int c) as [fy|e1|] eqn:H1; simpl; try done.
    intros [= <-]. by eapply float_of_int_raises.
Qed.

Lemma getitem2_selector_error d k1 k2 e :
  getitem2 d k1 k2 = Raise e -> selector_error e.
Proof.
  intros [?|?]%getitem2_raises; [by left|right; by left].
Qed.

Section Raises.

Variable set_order : list node -> list node.
Variables (G : Graph) (budget : num).

Lemma consider_py_raises current spent n best m e :
  Generic.consider binary64 G budget current spent n best m = Raise e ->
  selector_error e.
Proof.
  unfold Generic.consider.
  destruct (get_edge_data G current n) as [d|]; [|done].
  destruct (dict_truthy d); [|done].
  destruct (getitem2 d m "cost") as [c|e'|] eqn:Hc; simpl; [| |done]; cycle 1.
  { intros [= <-]. by eapply getitem2_selector_error. }
  destruct (pynum_add (pynum_of c) spent) as [total|e'|] eqn:Hadd; simpl;
    [| |done]; cycle 1.
  { intros [= <-]. apply pynum_add_raises in Hadd as ->. right. by right. }
  destruct (pynum_le total (pynum_of budget)); [|done].
  destruct (getitem2 d m "time") as [t|e'|] eqn:Ht; simpl; [| |done]; cycle 1.
  { intros [= <-]. by eapply getitem2_selector_error. }
  destruct (pynum_mul (pynum_of c) (VInt 10)) as [w|e'|] eqn:Hmul; simpl;
    [| |done]; cycle 1.
  { intros [= <-]. apply pynum_mul_raises in Hmul as ->. right. by right. }
  destruct (pynum_add (pynum_of t) w) as [sc|e'|] eqn:Hadd'; simpl;
    [| |done]; cycle 1.
  { intros [= <-]. apply pynum_add_raises in Hadd' as ->. right. by right. }
  by destruct (pynum_lt sc _).
Qed.

Lemma loop_body_py_raises s e :
  Generic.loop_body binary64 set_order G budget s = Raise e -> selector_error e.
Proof.
  unfold Generic.loop_body.
  destruct (Generic.scan _ _ _ _ _ _ _) as [best|e'|] eqn:Hscan; simpl;
    [| |done]; cycle 1.
  { intros [= <-]. unfold Generic.scan in Hscan.
    eapply (for_each_raises _ selector_error) in Hscan; [done|].
    intros best n e1. apply for_each_raises. intros best' m e2.
    apply consider_py_raises. }
  destruct best as [[[n sc] m]|]; [|done]. unfold edge_item.
  destruct (g_adj G !! (Generic.current_node s, n)) as [d|];
    [|simpl; intros [= <-]; by left].
  destruct (getitem2 d m "time") as [t|e'|] eqn:Ht; simpl; [| |done]; cycle 1.
  { intros [= <-]. by eapply getitem2_selector_error. }
  destruct (getitem2 d m "cost") as [c|e'|] eqn:Hc; simpl; [| |done]; cycle 1.
  { intros [= <-]. by eapply getitem2_selector_error. }
  destruct (pynum_add _ _) as [total|e'|] eqn:Hadd; simpl; [| |done]; cycle 1.
  { intros [= <-]. apply pynum_add_raises in Hadd as ->. right. by right. }
  case_bool_decide; [done|]. intros [= <-]. by left.
Qed.

Lemma while_remaining_py_raises fuel s e :
  Generic.while_remaining binary64 set_order fuel G budget s = Raise e ->
  selector_error e.
Proof.
  revert s. induction fuel as [|fuel IH]; intros s; simpl;
    destruct (Generic.remaining_nodes s); try done.
  destruct (Generic.loop_body binary64 set_order G budget s)
    as [[s'|]|e'|] eqn:Hbody; simpl; try done.
  - apply IH.
  - intros [= <-]. by eapply loop_body_py_raises.
Qed.

End Raises.

(** X5: the selector raises [IndexError] exactly when the graph has no
    node; whatever else it raises is the [KeyError] or the [TypeError] of
    a subscript on the data of an edge, or the [OverflowError] of an int
    too large for the float it is added to or multiplied with. *)
Theorem selector_exceptions set_order G budget :
  (g_nodes G = [] <->
   Generic._calculate_optimal_path binary64 set_order G budget =
     Raise IndexError) /\
  (forall e,
     Generic._calculate_optimal_path binary64 set_order G budget = Raise e ->
     e = IndexError \/ selector_error e).
Proof.
  unfold Generic._calculate_optimal_path. destruct (g_nodes G) as [|start rest].
  - split; [done|]. intros e [= <-]. by left.
  - split.
    + split; [done|]. intros Hrun.
      by apply while_remaining_py_raises in Hrun as [?|[?|?]].
    + intros e Hrun. right. by apply while_remaining_py_raises in Hrun.
Qed.

(** An int beyond the range of floats, added to a float. *)
Example selector_overflow_error :
  Generic._calculate_optimal_path binary64 list_order
    (add_edge empty_graph "A" "B"
       {[ "walking" := mode_entry (PInt (10 ^ 400)) (PFloat 0);
          "taxi" := mode_entry (PInt (10 ^ 400)) (PFloat 0);
          "public_transport" := mode_entry (PInt (10 ^ 400)) (PFloat 0) ]})
    (PInt 100) = Raise OverflowError.
Proof. vm_compute. reflexivity. Qed.

Lemma selector_returns_on_readable_graph_witness :
  exists path,
    Generic._calculate_optimal_path binary64 list_order sample_graph (PInt 1) =
    Return path.
Proof.
  apply selector_returns_on_readable_graph.
  - apply list_order_elem.
  - apply sample_graph_readable.
  - apply sample_graph_ints.
  - by rewrite sample_graph_nodes.
Defined.
